(** * kysely-sqlite-tools: schema builder, worker transport and driver

    A shallow embedding of the parts of the repository that carry behaviour:

    - [Define]        : [defineTable] of the schema-definition module
    - [SqliteBuilder] : [createTimeTrigger] and [runCreateTable] of
                        packages/sqlite-builder/src/util.ts
    - [BunWorker]     : [run] and [onmessage] of
                        packages/dialect-bun-worker/src/worker.ts
    - [ToyDatabase]   : a small database to run the worker on
    - [ConnectionMutex], [WaSqliteWorker] : the mutex, the driver and the
                        connection of the playground's modules/utils.ts

    JavaScript objects used as dictionaries are finite maps, objects whose
    iteration order matters are association lists, mutable objects that are
    shared live in an explicit store, and asynchronous code is a transition
    system over the promise reactions and the job queue. *)

From stdpp Require Import gmap strings list fin_maps.

Local Open Scope string_scope.
Local Open Scope list_scope.

(* ===================================================================== *)
(** * [defineTable]                                                        *)
(* ===================================================================== *)

Module Define.

(** Values that appear as [defaultTo] / [notNull] in a column description. *)
Inductive Value :=
| VStr (s : string)
| VNum (n : Z)
| VBool (b : bool)
| VNull.

(** [{ type, defaultTo, notNull }]; an absent property is [None]. *)
Record ColumnProperty := mkColumnProperty {
  type : string;
  defaultTo : option Value;
  notNull : option Value
}.

(** One side of [TimeTriggerOptions<C, U>]: [C extends string | true | null];
    an absent property and [null] behave alike in [defineTable]. *)
Inductive TriggerOpt :=
| TrgAbsent
| TrgTrue
| TrgName (s : string).

Record TimeTriggerOptions := mkTimeTriggerOptions {
  create : TriggerOpt;
  update : TriggerOpt
}.

Inductive Keys :=
| One (c : string)
| Many (cs : list string).

Record TableProperty := mkTableProperty {
  primary : option Keys;
  unique : option (list Keys);
  index : option (list Keys);
  timeTrigger : option TimeTriggerOptions
}.

(** Column objects are mutable and passed by reference: they live in a store,
    addressed by location. *)
Abbreviation loc := nat (only parsing).
Abbreviation Columns := (gmap string ColumnProperty) (only parsing).
Abbreviation Store := (gmap nat (gmap string ColumnProperty)) (only parsing).

(** The returned [{ columns, ...property }]: [columns] is the reference that
    was passed in. *)
Record Table := mkTable {
  columns : loc;
  property : option TableProperty
}.

Definition TGR : string := "__TIME_TRIGGER__".

(** [columns[k] = v] on the object at [l]. *)
Definition assign (l : loc) (k : string) (v : ColumnProperty)
  (h : Store) : Store :=
  alter (insert k v) l h.

(** [const options = { type: 'date', defaultTo: TGR }] *)
Definition options : ColumnProperty :=
  {| type := "date"; defaultTo := Some (VStr TGR); notNull := None |}.

(** [{ ...options, notNull: 0 }] *)
Definition options_notNull0 : ColumnProperty :=
  {| type := type options; defaultTo := defaultTo options;
     notNull := Some (VNum 0) |}.

(** The key written by [if (x === true) ... else if (x) ...]: the default
    name for [true], the given name for a non-empty string, nothing for
    [undefined], [null] and the empty string. *)
Definition trigger_key (o : TriggerOpt) (dflt : string) : option string :=
  match o with
  | TrgTrue => Some dflt
  | TrgName s => if decide (s = "") then None else Some s
  | TrgAbsent => None
  end.

Definition assign_if (l : loc) (k : option string) (v : ColumnProperty)
  (h : Store) : Store :=
  match k with
  | Some k => assign l k v h
  | None => h
  end.

Definition defineTable (cols : loc) (prop : option TableProperty)
  (h : Store) : Table * Store :=
  (* const { create, update } = property?.timeTrigger || {} *)
  let tt := default (mkTimeTriggerOptions TrgAbsent TrgAbsent)
                    (prop ≫= timeTrigger) in
  let h1 := assign_if cols (trigger_key (create tt) "createAt") options h in
  let h2 := assign_if cols (trigger_key (update tt) "updateAt")
                      options_notNull0 h1 in
  ({| columns := cols; property := prop |}, h2).

(** A time-trigger entry: type ['date'] and the sentinel default. *)
Definition is_trigger_entry (c : ColumnProperty) : Prop :=
  type c = "date" ∧ defaultTo c = Some (VStr TGR).

(** The caller's object of the example in the source's documentation,
    cut down to two columns, at location 0. *)
Definition example_columns : Columns :=
  {[ "id" := mkColumnProperty "increments" None None;
     "simple" := mkColumnProperty "string" (Some (VStr "test")) None ]}.

Definition example_store : Store := {[ 0 := example_columns ]}.

Definition example_property : TableProperty :=
  {| primary := Some (One "id"); unique := None; index := None;
     timeTrigger := Some {| create := TrgTrue; update := TrgName "changed" |} |}.

Lemma assign_lookup l k v (h : Store) obj :
  h !! l = Some obj → assign l k v h !! l = Some (<[k := v]> obj).
Proof. intros H. unfold assign. rewrite lookup_alter_eq, H. done. Qed.

Lemma assign_other l l' k v (h : Store) :
  l ≠ l' → assign l k v h !! l' = h !! l'.
Proof. intros H. unfold assign. by rewrite lookup_alter_ne. Qed.

Lemma assign_if_lookup l k v (h : Store) obj :
  h !! l = Some obj →
  assign_if l k v h !! l =
    Some (match k with Some k => <[k := v]> obj | None => obj end).
Proof. destruct k; simpl; [apply assign_lookup | done]. Qed.

Lemma assign_if_other l l' k v (h : Store) :
  l ≠ l' → assign_if l k v h !! l' = h !! l'.
Proof. destruct k; simpl; [apply assign_other | done]. Qed.

(** C9. [defineTable] returns the very reference it was given and writes the
    time-trigger entries into the object behind it: the entry under the
    create name (['createAt'] or the custom name) and the one under the
    update name (['updateAt'] or the custom name) have type ['date'] and the
    sentinel default, every other key of the object and every other object
    of the store keep their value, and without a [timeTrigger] (or with
    neither side enabled) the store is left as it was. *)
Theorem defineTable_mutates_caller_columns
  (cols : loc) (prop : option TableProperty) (h : Store) (obj : Columns) :
  h !! cols = Some obj →
  let tt := default (mkTimeTriggerOptions TrgAbsent TrgAbsent)
                    (prop ≫= timeTrigger) in
  let cn := trigger_key (create tt) "createAt" in
  let un := trigger_key (update tt) "updateAt" in
  let r := defineTable cols prop h in
  columns r.1 = cols ∧
  (∀ l, l ≠ cols → r.2 !! l = h !! l) ∧
  (prop ≫= timeTrigger = None → r.2 = h) ∧
  (cn = None → un = None → r.2 = h) ∧
  ∃ obj', r.2 !! cols = Some obj' ∧
    (∀ k, cn = Some k → ∃ e, obj' !! k = Some e ∧ is_trigger_entry e) ∧
    (∀ k, cn = Some k → un ≠ Some k → obj' !! k = Some options) ∧
    (∀ k, un = Some k → obj' !! k = Some options_notNull0) ∧
    (∀ k, cn ≠ Some k → un ≠ Some k → obj' !! k = obj !! k).
Proof.
  intros Hobj tt cn un r.
  split; [reflexivity|].
  split.
  { intros l Hl. subst r. unfold defineTable. simpl.
    by rewrite !assign_if_other. }
  split.
  { intros Hnone. subst r. unfold defineTable. by rewrite Hnone. }
  split.
  { intros Hc Hu. subst r cn un tt. unfold defineTable. simpl.
    by rewrite Hc, Hu. }
  subst r. unfold defineTable. simpl. fold tt. fold cn. fold un.
  pose proof (assign_if_lookup cols cn options h obj Hobj) as H1.
  pose proof (assign_if_lookup cols un options_notNull0 _ _ H1) as H2.
  eexists. split; [exact H2|].
  repeat split.
  - intros k Hk. rewrite Hk. destruct un as [u|].
    + destruct (decide (u = k)) as [->|Hne].
      * exists options_notNull0. rewrite lookup_insert_eq. by repeat split.
      * exists options. rewrite lookup_insert_ne, lookup_insert_eq by done.
        by repeat split.
    + exists options. rewrite lookup_insert_eq. by repeat split.
  - intros k Hk Hu. rewrite Hk. destruct un as [u|].
    + rewrite lookup_insert_ne by congruence. by rewrite lookup_insert_eq.
    + by rewrite lookup_insert_eq.
  - intros k Hk. rewrite Hk. by rewrite lookup_insert_eq.
  - intros k Hc Hu. destruct un as [u|], cn as [c|];
      rewrite ?lookup_insert_ne by congruence; done.
Qed.

Lemma defineTable_mutates_caller_columns_witness :
  ∃ obj', (defineTable 0 (Some example_property) example_store).2 !! 0
            = Some obj' ∧
    obj' !! "createAt" = Some options ∧
    obj' !! "changed" = Some options_notNull0 ∧
    obj' !! "id" = example_columns !! "id".
Proof.
  destruct (defineTable_mutates_caller_columns
              0 (Some example_property) example_store example_columns
              (lookup_singleton_eq 0 example_columns))
    as (_ & _ & _ & _ & obj' & Hobj' & _ & Hc & Hu & Hk).
  exists obj'. split; [exact Hobj'|].
  split; [apply Hc; [reflexivity|discriminate]|].
  split; [apply Hu; reflexivity|].
  apply Hk; discriminate.
Defined.

End Define.

(* ===================================================================== *)
(** * [createTimeTrigger] and [runCreateTable]                             *)
(* ===================================================================== *)

Module SqliteBuilder.

(** ** types.ts *)

Inductive TriggerEvent := Insert | Update | Delete.

(** [defaultTo]: a literal, or a function of the [sql] tag that yields a raw
    expression ([defaultTo instanceof Function ? defaultTo(sql) : defaultTo]). *)
Inductive DefaultTo :=
| DLit (v : string)
| DFn (raw : string).

(** [ColumeOption]: [type] is the string the [switch] inspects; an absent
    [notNull] is [false], an absent [defaultTo] is [None]. *)
Record ColumeOption := mkColumeOption {
  type : string;
  defaultTo : option DefaultTo;
  notNull : bool
}.

(** [keyof T | Array<keyof T>] *)
Inductive Keys :=
| One (c : string)
| Many (cs : list string).

(** [timestamp?: boolean | { create?: keyof T; update?: keyof T }] *)
Inductive Timestamp :=
| TsBool (b : bool)
| TsObj (ts_create ts_update : option string).

Record TableOption := mkTableOption {
  primary : option Keys;
  unique : option (list Keys);
  index : option (list Keys);
  timestamp : option Timestamp
}.

(** [ITable]: [columns] in the order [Object.entries] yields them. *)
Record Table := mkTable {
  columns : list (string * ColumeOption);
  property : option TableOption
}.

(** ** The query builder's nodes *)

Inductive DefaultExpr :=
| EValue (v : string)
| ERaw (sql : string).

Record ColumnDefinition := mkColumnDefinition {
  col_name : string;
  col_dataType : string;
  col_autoIncrement : bool;
  col_primaryKey : bool;
  col_notNull : bool;
  col_defaultTo : option DefaultExpr
}.

Inductive Constraint :=
| PrimaryKeyConstraint (name : string) (cols : list string)
| UniqueConstraint (name : string) (cols : list string).

Record CreateTableNode := mkCreateTableNode {
  ct_table : string;
  ct_columns : list ColumnDefinition;
  ct_constraints : list Constraint;
  ct_ifNotExists : bool
}.

(** The holes of the trigger template of [createTimeTrigger]:
    [create trigger if not exists <name> after <event> on <table> begin
     update <table> set <column> = <value> where <key> = NEW.<key>; end]. *)
Record TriggerSql := mkTriggerSql {
  trg_name : string;
  trg_event : TriggerEvent;
  trg_table : string;
  trg_column : string;
  trg_value : string;
  trg_key : string
}.

Inductive Stmt :=
| DropTable (table : string) (ifExists : bool)
| CreateTable (node : CreateTableNode)
| CreateIndex (name table : string) (cols : list string) (ifNotExists : bool)
| CreateTrigger (t : TriggerSql).

Definition is_trigger_stmt (s : Stmt) : bool :=
  match s with CreateTrigger _ => true | _ => false end.

(** ** JavaScript helpers *)

(** Truthiness of [string | undefined]. *)
Definition truthy (s : option string) : option string :=
  match s with
  | Some s => if decide (s = "") then None else Some s
  | None => None
  end.

(** [Array.isArray(k) ? k.join('_') : k] *)
Definition keys_join (k : Keys) : string :=
  match k with
  | One c => c
  | Many cs => String.concat "_" cs
  end.

(** [Array.isArray(k) ? k : [k]] *)
Definition keys_list (k : Keys) : list string :=
  match k with
  | One c => [c]
  | Many cs => cs
  end.

(** [Array.isArray(k) ? k[0] : k]; [k[0]] of an empty array is [undefined]. *)
Definition keys_first (k : Keys) : option string :=
  match k with
  | One c => Some c
  | Many cs => head cs
  end.

(** Truthiness of [primary]: an array is truthy, a string unless empty. *)
Definition keys_truthy (k : option Keys) : bool :=
  match k with
  | Some (One c) => bool_decide (c ≠ "")
  | Some (Many _) => true
  | None => false
  end.

(** Truthiness of [timestamp]: [true] or an object. *)
Definition timestamp_truthy (ts : option Timestamp) : bool :=
  match ts with
  | Some (TsBool b) => b
  | Some (TsObj _ _) => true
  | None => false
  end.

(** [(typeof timestamp === 'object' && timestamp.create) || 'createAt'] *)
Definition insertColumnName (ts : option Timestamp) : string :=
  match ts with
  | Some (TsObj c _) => default "createAt" (truthy c)
  | _ => "createAt"
  end.

(** [(typeof timestamp === 'object' && timestamp.update) || 'updateAt'] *)
Definition updateColumnName (ts : option Timestamp) : string :=
  match ts with
  | Some (TsObj _ u) => default "updateAt" (truthy u)
  | _ => "updateAt"
  end.

(** ** The column loop of [runCreateTable] *)

(** The [switch (type)]: [dataType] starts as ['text'] and no case assigns
    anything but ['text'], ['integer'] or ['blob']. *)
Definition dataTypeOf (type : string) : string :=
  if bool_decide (type ∈ ["boolean"; "date"; "object"; "string"]) then "text"
  else if bool_decide (type ∈ ["increments"; "number"]) then "integer"
  else if bool_decide (type = "blob") then "blob"
  else "text".

(** The callback handed to [addColumn]. *)
Definition columnBuilder (columnName dataType : string) (o : ColumeOption)
  : ColumnDefinition :=
  if bool_decide (type o = "increments") then
    mkColumnDefinition columnName dataType true true false None
  else
    mkColumnDefinition columnName dataType false false (notNull o)
      (match defaultTo o with
       | Some (DLit v) => Some (EValue v)
       | Some (DFn raw) => Some (ERaw raw)
       | None => None
       end).

(** The mutable locals of one iteration of the table loop. [_triggerKey] can
    become [undefined] ([primary[0]] of an empty array): [None]. *)
Record Locals := mkLocals {
  tableSql : CreateTableNode;
  _triggerKey : option string;
  _haveAutoKey : bool
}.

Definition addColumn (d : ColumnDefinition) (n : CreateTableNode)
  : CreateTableNode :=
  mkCreateTableNode (ct_table n) (ct_columns n ++ [d]) (ct_constraints n)
    (ct_ifNotExists n).

Definition addConstraint (c : Constraint) (n : CreateTableNode)
  : CreateTableNode :=
  mkCreateTableNode (ct_table n) (ct_columns n) (ct_constraints n ++ [c])
    (ct_ifNotExists n).

Definition ifNotExists (n : CreateTableNode) : CreateTableNode :=
  mkCreateTableNode (ct_table n) (ct_columns n) (ct_constraints n) true.

(** One pass of [for (const [columnName, columnOption] of ...)]. *)
Definition columnStep (ins upd : string) (st : Locals)
  (entry : string * ColumeOption) : Locals :=
  let '(columnName, o) := entry in
  let dataType := dataTypeOf (type o) in
  let key := if bool_decide (type o = "increments")
             then Some columnName else _triggerKey st in
  if bool_decide (columnName ∈ [ins; upd]) then
    mkLocals (tableSql st) key (_haveAutoKey st)
  else
    mkLocals (addColumn (columnBuilder columnName dataType o) (tableSql st))
      key
      (if bool_decide (type o = "increments") then true else _haveAutoKey st).

Definition plainColumn (name dataType : string) : ColumnDefinition :=
  mkColumnDefinition name dataType false false false None.

(** [if (timestamp) tableSql = tableSql.addColumn(ins, 'text').addColumn(upd, 'text')] *)
Definition timestampStep (ts : option Timestamp) (st : Locals) : Locals :=
  if timestamp_truthy ts then
    mkLocals
      (addColumn (plainColumn (updateColumnName ts) "text")
         (addColumn (plainColumn (insertColumnName ts) "text") (tableSql st)))
      (_triggerKey st) (_haveAutoKey st)
  else st.

(** [if (!_haveAutoKey && primary) ...] *)
Definition primaryStep (primary : option Keys) (st : Locals) : Locals :=
  match primary with
  | Some p =>
    if negb (_haveAutoKey st) && keys_truthy primary then
      mkLocals
        (addConstraint (PrimaryKeyConstraint ("pk_" +:+ keys_join p)
                          (keys_list p)) (tableSql st))
        (keys_first p) (_haveAutoKey st)
    else st
  | None => st
  end.

(** One call of the [unique?.forEach] callback. *)
Definition uniqueStep (primary : option Keys) (st : Locals) (u : Keys)
  : Locals :=
  mkLocals
    (addConstraint (UniqueConstraint ("un_" +:+ keys_join u) (keys_list u))
       (tableSql st))
    (if negb (keys_truthy primary) && negb (_haveAutoKey st)
     then keys_first u else _triggerKey st)
    (_haveAutoKey st).

(** The locals when [tableSql.ifNotExists().execute()] is reached. *)
Definition buildTable (tableName : string) (table : Table) : Locals :=
  let p := property table in
  let ts := p ≫= timestamp in
  let st0 := mkLocals (mkCreateTableNode tableName [] [] false)
                      (Some "rowid") false in
  let st1 := foldl (columnStep (insertColumnName ts) (updateColumnName ts))
                   st0 (columns table) in
  let st2 := timestampStep ts st1 in
  let st3 := primaryStep (p ≫= primary) st2 in
  foldl (uniqueStep (p ≫= primary)) st3 (default [] (p ≫= unique)).

(** ** What the loops compute, read off declaratively *)

(** The columns a table definition declares and the loop does not skip. *)
Definition keptColumns (ins upd : string)
  (cols : list (string * ColumeOption)) : list (string * ColumeOption) :=
  filter (λ e, e.1 ∉ [ins; upd]) cols.

(** The names of the columns of type ['increments'], skipped or not. *)
Definition incrementNames (cols : list (string * ColumeOption))
  : list string :=
  (filter (λ e, type e.2 = "increments") cols).*1.

(** Whether some column the loop keeps is of type ['increments']. *)
Definition hasAutoKey (ins upd : string)
  (cols : list (string * ColumeOption)) : bool :=
  bool_decide (Exists (λ e, type e.2 = "increments") (keptColumns ins upd cols)).

(** The key both time triggers compare on: the auto-increment column when
    the table has one, else the first column of the declared primary key,
    else the first column of the last unique constraint, else [rowid]. *)
Definition effectiveKey (table : Table) : string :=
  let p := property table in
  let ts := p ≫= timestamp in
  let incs := incrementNames (columns table) in
  if hasAutoKey (insertColumnName ts) (updateColumnName ts) (columns table)
  then default "rowid" (last incs)
  else if keys_truthy (p ≫= primary)
  then default "rowid" ((p ≫= primary) ≫= keys_first)
  else match last (default [] (p ≫= unique)) with
       | Some u => default "rowid" (keys_first u)
       | None => default "rowid" (last incs)
       end.

(** Modelled on the specification's words, for comparison with
    [dataTypeOf]: string, boolean, date and object columns are text, number
    and auto-increment columns are integer, blob columns are blob, real
    (float) columns are real. *)
Definition spec_dataType (type : string) : option string :=
  if bool_decide (type ∈ ["string"; "boolean"; "date"; "object"])
  then Some "text"
  else if bool_decide (type ∈ ["number"; "increments"]) then Some "integer"
  else if bool_decide (type = "blob") then Some "blob"
  else if bool_decide (type ∈ ["real"; "float"]) then Some "real"
  else None.

(** ** The database behind [kysely]

    What the statements above do to the engine's catalog. A table is stored
    with the node that created it, an index made by [create index] with its
    table and columns, a trigger with its template. Dropping a table drops
    its indexes and triggers with it.

    SQLite compares the names of tables, indexes, triggers and columns
    without regard to the case of the ASCII letters, quoted or not: the
    catalog is keyed by the names with [A]-[Z] turned into [a]-[z], and
    every statement looks its names up in that form. *)

Definition lower (a : Ascii.ascii) : Ascii.ascii :=
  let n := Ascii.nat_of_ascii a in
  if Nat.leb 65 n && Nat.leb n 90 then Ascii.ascii_of_nat (n + 32) else a.

Fixpoint nocase (s : string) : string :=
  match s with
  | EmptyString => EmptyString
  | String a s => String (lower a) (nocase s)
  end.

Record Catalog := mkCatalog {
  tables : gmap string CreateTableNode;
  indexes : gmap string (string * list string);
  triggers : gmap string TriggerSql
}.

Inductive Outcome := Applied | Skipped | Failed.

Inductive SqlError := Rejected (s : Stmt).

(** The connection: the catalog, every statement sent with what became of
    it, and what [console.error] printed. *)
Record Db := mkDb {
  catalog : Catalog;
  issued : list (Stmt * Outcome);
  console : list SqlError
}.

(** An [async] computation over the connection: it resolves ([inr]) or
    rejects ([inl]); the effects made before a rejection stay. *)
Definition M (A : Type) : Type := Db → (SqlError + A) * Db.

#[global] Instance M_ret : MRet M := λ A (x : A) db, (inr x, db).

#[global] Instance M_bind : MBind M := λ A B (k : A → M B) (m : M A) db,
  match m db with
  | (inr x, db') => k x db'
  | (inl e, db') => (inl e, db')
  end.

(** [p.catch(handler)] *)
Definition catch {A} (m : M A) (handler : SqlError → M A) : M A := λ db,
  match m db with
  | (inl e, db') => handler e db'
  | r => r
  end.

(** [console.error(err)] *)
Definition console_error (e : SqlError) : M unit := λ db,
  (inr (), mkDb (catalog db) (issued db) (console db ++ [e])).

(** [for (const x of l) { await body(x) }] *)
Fixpoint forOf {A} (l : list A) (body : A → M unit) : M unit :=
  match l with
  | [] => mret ()
  | x :: l => body x ;; forOf l body
  end.

Definition column_names (n : CreateTableNode) : list string :=
  col_name <$> ct_columns n.

Section Engine.

(** Whether the engine accepts the text of a statement at all (its syntax,
    its identifiers); what else can fail is decided on the catalog. *)
Variable accepts : Stmt → bool.

(** Whether the engine resolves the columns of a [create index] against
    the table as it was created. This depends on how the engine was built:
    one takes a quoted name that is no column of the table for a string and
    indexes that, another rejects the statement. *)
Variable resolves : CreateTableNode → list string → bool.

(** One statement against the catalog, with the checks in the engine's
    order. [create index] and [create trigger] look their table up first,
    and only then whether the name is taken, which [if not exists] turns
    from an error into a skip. Tables and indexes share their names: a
    table cannot take the name of an index, nor an index that of a table
    (no name is ever both, so which of the two an index statement finds
    first does not show). *)
Definition exec (c : Catalog) (s : Stmt) : Outcome * Catalog :=
  if negb (accepts s) then (Failed, c) else
  match s with
  | DropTable t ifExists =>
    match tables c !! nocase t with
    | Some _ =>
      (Applied,
       mkCatalog (delete (nocase t) (tables c))
         (filter (λ kv, nocase kv.2.1 ≠ nocase t) (indexes c))
         (filter (λ kv, nocase (trg_table kv.2) ≠ nocase t) (triggers c)))
    | None => (if ifExists then Skipped else Failed, c)
    end
  | CreateTable n =>
    match tables c !! nocase (ct_table n) with
    | Some _ => (if ct_ifNotExists n then Skipped else Failed, c)
    | None =>
      match indexes c !! nocase (ct_table n) with
      | Some _ => (Failed, c)
      | None =>
        (Applied,
         mkCatalog (<[nocase (ct_table n) := n]> (tables c)) (indexes c)
           (triggers c))
      end
    end
  | CreateIndex name t cols ine =>
    match tables c !! nocase t with
    | None => (Failed, c)
    | Some n =>
      match indexes c !! nocase name with
      | Some _ => (if ine then Skipped else Failed, c)
      | None =>
        match tables c !! nocase name with
        | Some _ => (Failed, c)
        | None =>
          if resolves n cols then
            (Applied,
             mkCatalog (tables c) (<[nocase name := (t, cols)]> (indexes c))
               (triggers c))
          else (Failed, c)
        end
      end
    end
  | CreateTrigger t =>
    match tables c !! nocase (trg_table t) with
    | None => (Failed, c)
    | Some _ =>
      match triggers c !! nocase (trg_name t) with
      | Some _ => (Skipped, c)
      | None =>
        (Applied,
         mkCatalog (tables c) (indexes c)
           (<[nocase (trg_name t) := t]> (triggers c)))
      end
    end
  end.

(** [builder.execute()] / [sql`...`.execute(kysely)] *)
Definition execute (s : Stmt) : M unit := λ db,
  let '(o, c) := exec (catalog db) s in
  let db' := mkDb c (issued db ++ [(s, o)]) (console db) in
  match o with
  | Failed => (inl (Rejected s), db')
  | _ => (inr (), db')
  end.

(** ** util.ts *)

Definition triggerSql (table : string) (event : TriggerEvent)
  (column key : string) : TriggerSql :=
  {| trg_name := table +:+ "_" +:+ column;
     trg_event := event;
     trg_table := table;
     trg_column := column;
     trg_value := "datetime('now','localtime')";
     trg_key := key |}.

(** [key = 'rowid'] is a default parameter: it replaces [undefined] only. *)
Definition createTimeTrigger (table : string) (event : TriggerEvent)
  (column : string) (key : option string) : M unit :=
  let key := default "rowid" key in
  catch (execute (CreateTrigger (triggerSql table event column key)))
        (λ err, console_error err ;; mret ()).

Definition createIndex (tableName : string) (i : Keys) : M unit :=
  execute (CreateIndex ("idx_" +:+ keys_join i) tableName (keys_list i) true).

(** The body of [for (const [tableName, table] of tableMap)]. The [.catch()]
    after the drop has no handler, so a rejection passes through it. *)
Definition createOne (dropTableBeforeInit : bool) (entry : string * Table)
  : M unit :=
  let '(tableName, table) := entry in
  let p := property table in
  let ts := p ≫= timestamp in
  (if dropTableBeforeInit then execute (DropTable tableName true)
   else mret ()) ;;
  let st := buildTable tableName table in
  execute (CreateTable (ifNotExists (tableSql st))) ;;
  forOf (default [] (p ≫= index)) (createIndex tableName) ;;
  if timestamp_truthy ts then
    createTimeTrigger tableName Insert (insertColumnName ts) (_triggerKey st) ;;
    createTimeTrigger tableName Update (updateColumnName ts) (_triggerKey st)
  else mret ().

Definition runCreateTable (tableMap : list (string * Table))
  (dropTableBeforeInit : bool) : M unit :=
  forOf tableMap (createOne dropTableBeforeInit).

(** ** The statements of a run, in order

    What [runCreateTable] sends does not depend on the database: the table
    loop is the run of a list of statements in which every trigger statement
    is sent under [createTimeTrigger]'s handler and every other one bare. *)

Definition guard (s : Stmt) : M unit :=
  if is_trigger_stmt s then catch (execute s) (λ err, console_error err ;; mret ())
  else execute s.

Definition runScript (l : list Stmt) : M unit := forOf l guard.

End Engine.

Definition indexStmt (tableName : string) (i : Keys) : Stmt :=
  CreateIndex ("idx_" +:+ keys_join i) tableName (keys_list i) true.

Definition triggerStmts (tableName : string) (table : Table) : list Stmt :=
  let ts := property table ≫= timestamp in
  let key := default "rowid" (_triggerKey (buildTable tableName table)) in
  if timestamp_truthy ts then
    [CreateTrigger (triggerSql tableName Insert (insertColumnName ts) key);
     CreateTrigger (triggerSql tableName Update (updateColumnName ts) key)]
  else [].

Definition scriptOne (dropTableBeforeInit : bool) (entry : string * Table)
  : list Stmt :=
  (if dropTableBeforeInit then [DropTable entry.1 true] else []) ++
  [CreateTable (ifNotExists (tableSql (buildTable entry.1 entry.2)))] ++
  (indexStmt entry.1 <$> default [] (property entry.2 ≫= index)) ++
  triggerStmts entry.1 entry.2.

Definition script (dropTableBeforeInit : bool)
  (tableMap : list (string * Table)) : list Stmt :=
  concat (scriptOne dropTableBeforeInit <$> tableMap).

(** ** Auxiliary notions and example tables *)

Definition is_failed (o : Outcome) : bool :=
  match o with Failed => true | _ => false end.

Definition acceptAll : Stmt → bool := λ _, true.

(** An engine that resolves the names of the table's columns only. *)
Definition declaredColumns (n : CreateTableNode) (cols : list string) : bool :=
  bool_decide (Forall (λ x, nocase x ∈ nocase <$> column_names n) cols).

Definition emptyDb : Db := mkDb (mkCatalog ∅ ∅ ∅) [] [].

(** The keys of the trigger statements sent so far. *)
Definition issuedTriggerKeys (db : Db) : list string :=
  omap (λ so, match so.1 with
              | CreateTrigger t => Some (trg_key t)
              | _ => None
              end) (issued db).

(** The data types of the columns of the [create table] statements sent. *)
Definition issuedDataTypes (db : Db) : list (string * string) :=
  mjoin (omap (λ so, match so.1 with
              | CreateTable n =>
                Some ((λ d, (col_name d, col_dataType d)) <$> ct_columns n)
              | _ => None
              end) (issued db)).

(** The table of the playground: [id], [name], [blobtest] and both
    timestamps. *)
Definition testTable : Table :=
  mkTable [("id", mkColumeOption "increments" None false);
           ("name", mkColumeOption "string" None false);
           ("blobtest", mkColumeOption "blob" None false)]
    (Some (mkTableOption None None (Some [One "name"]) (Some (TsBool true)))).

(** A table with neither an auto-increment column nor a primary key, and
    one unique constraint. *)
Definition userTable : Table :=
  mkTable [("email", mkColumeOption "string" None true);
           ("score", mkColumeOption "float" None false)]
    (Some (mkTableOption None (Some [One "email"]) None (Some (TsBool true)))).

(** A table whose only column of type increments is named like the create
    column. *)
Definition stampedTable : Table :=
  mkTable [("createAt", mkColumeOption "increments" None false);
           ("a", mkColumeOption "string" None false)]
    (Some (mkTableOption None None None (Some (TsBool true)))).

(** The same columns after an auto-increment column [id]. *)
Definition stampedIdTable : Table :=
  mkTable [("id", mkColumeOption "increments" None false);
           ("createAt", mkColumeOption "increments" None false);
           ("a", mkColumeOption "string" None false)]
    (Some (mkTableOption None None None (Some (TsBool true)))).

Definition rejectTriggers : Stmt → bool := λ s, negb (is_trigger_stmt s).

(** The object a [create ... if not exists] names is in the catalog, and
    so is the table an index or trigger is on. *)
Definition created (c : Catalog) (s : Stmt) : Prop :=
  match s with
  | CreateTable n => is_Some (tables c !! nocase (ct_table n))
  | CreateIndex name t _ _ =>
    is_Some (tables c !! nocase t) ∧ is_Some (indexes c !! nocase name)
  | CreateTrigger t =>
    is_Some (tables c !! nocase (trg_table t)) ∧
    is_Some (triggers c !! nocase (trg_name t))
  | DropTable _ _ => False
  end.

(** The statement is a [create] guarded by [if not exists]. *)
Definition ifne (s : Stmt) : bool :=
  match s with
  | CreateTable n => ct_ifNotExists n
  | CreateIndex _ _ _ ine => ine
  | CreateTrigger _ => true
  | DropTable _ _ => false
  end.

(** Every name of [c] is a name of [c']. *)
Definition names_le (c c' : Catalog) : Prop :=
  (∀ k, is_Some (tables c !! k) → is_Some (tables c' !! k)) ∧
  (∀ k, is_Some (indexes c !! k) → is_Some (indexes c' !! k)) ∧
  (∀ k, is_Some (triggers c !! k) → is_Some (triggers c' !! k)).

(** Against [c] the statement does nothing: its object is there, or it is
    a trigger statement the engine rejects (and the handler swallows). *)
Definition settled (accepts : Stmt → bool) (c : Catalog) (s : Stmt) : Prop :=
  (accepts s = true ∧ created c s) ∨
  (is_trigger_stmt s = true ∧ accepts s = false).

Definition twoTables : list (string * Table) :=
  [("test", testTable); ("user", userTable)].

Definition syncedDb : Db := snd (runCreateTable acceptAll declaredColumns twoTables false emptyDb).

(** *** Monad bookkeeping *)

Lemma bind_run {A B} (m : M A) (k : A → M B) db :
  (m ≫= k) db =
  match m db with
  | (inr x, db') => k x db'
  | (inl e, db') => (inl e, db')
  end.
Proof. reflexivity. Qed.

Lemma forOf_app {A} (l1 l2 : list A) (f : A → M unit) db :
  forOf (l1 ++ l2) f db = (forOf l1 f ;; forOf l2 f) db.
Proof.
  revert db. induction l1 as [|x l1 IH]; intros db; simpl.
  - reflexivity.
  - rewrite !bind_run. destruct (f x db) as [[e|[]] db1]; [reflexivity|].
    rewrite IH. reflexivity.
Qed.

Lemma forOf_ext {A} (l : list A) (f g : A → M unit) db :
  (∀ x db, f x db = g x db) → forOf l f db = forOf l g db.
Proof.
  intros Hfg. revert db. induction l as [|x l IH]; intros db; simpl.
  - reflexivity.
  - rewrite !bind_run, Hfg. destruct (g x db) as [[e|[]] db1]; auto.
Qed.

Lemma forOf_fmap {A B} (h : A → B) (l : list A) (f : B → M unit) db :
  forOf (h <$> l) f db = forOf l (f ∘ h) db.
Proof.
  revert db. induction l as [|x l IH]; intros db; simpl.
  - reflexivity.
  - rewrite !bind_run. simpl. destruct (f (h x) db) as [[e|[]] db1]; auto.
Qed.

Lemma forOf_concat {A B} (h : A → list B) (l : list A) (f : B → M unit) db :
  forOf (concat (h <$> l)) f db = forOf l (λ x, forOf (h x) f) db.
Proof.
  revert db. induction l as [|x l IH]; intros db; simpl.
  - reflexivity.
  - rewrite forOf_app, !bind_run.
    destruct (forOf (h x) f db) as [[e|[]] db1]; auto.
Qed.

Lemma forOf_cons {A} (x : A) (l : list A) (f : A → M unit) db :
  forOf (x :: l) f db =
  match f x db with
  | (inr _, db') => forOf l f db'
  | (inl e, db') => (inl e, db')
  end.
Proof. simpl. rewrite bind_run. by destruct (f x db) as [[e|[]] db1]. Qed.

Lemma createOne_script accepts resolves dropTableBeforeInit entry db :
  createOne accepts resolves dropTableBeforeInit entry db =
  runScript accepts resolves (scriptOne dropTableBeforeInit entry) db.
Proof.
  destruct entry as [tableName table].
  unfold createOne, runScript, scriptOne, triggerStmts. simpl fst. simpl snd.
  rewrite forOf_app, !bind_run.
  assert (Hdrop :
    (if dropTableBeforeInit then execute accepts resolves (DropTable tableName true)
     else mret ()) db =
    forOf (if dropTableBeforeInit then [DropTable tableName true] else [])
      (guard accepts resolves) db).
  { destruct dropTableBeforeInit; [|reflexivity].
    rewrite forOf_cons. change (guard accepts resolves (DropTable tableName true))
      with (execute accepts resolves (DropTable tableName true)).
    by destruct (execute accepts resolves _ db) as [[e|[]] db1]. }
  rewrite Hdrop. clear Hdrop.
  destruct (forOf _ (guard accepts resolves) db) as [[e|[]] db1]; [reflexivity|].
  change ([?x] ++ ?l) with (x :: l).
  rewrite forOf_cons, bind_run.
  change (guard accepts resolves (CreateTable ?n)) with (execute accepts resolves (CreateTable n)).
  destruct (execute accepts resolves _ db1) as [[e|[]] db2]; [reflexivity|].
  rewrite forOf_app, !bind_run, forOf_fmap.
  change (guard accepts resolves ∘ indexStmt tableName)
    with (createIndex accepts resolves tableName).
  destruct (forOf _ (createIndex accepts resolves tableName) db2) as [[e|[]] db3];
    [reflexivity|].
  destruct (timestamp_truthy _); [|reflexivity].
  rewrite bind_run, forOf_cons.
  change (guard accepts resolves (CreateTrigger (triggerSql ?t ?e ?c (default "rowid" ?k))))
    with (createTimeTrigger accepts resolves t e c k).
  destruct (createTimeTrigger accepts resolves _ Insert _ _ db3) as [[e|[]] db4];
    [reflexivity|].
  rewrite forOf_cons.
  change (guard accepts resolves (CreateTrigger (triggerSql ?t ?e ?c (default "rowid" ?k))))
    with (createTimeTrigger accepts resolves t e c k).
  by destruct (createTimeTrigger accepts resolves _ Update _ _ db4) as [[e|[]] db5].
Qed.

Lemma runCreateTable_script accepts resolves tableMap dropTableBeforeInit db :
  runCreateTable accepts resolves tableMap dropTableBeforeInit db =
  runScript accepts resolves (script dropTableBeforeInit tableMap) db.
Proof.
  unfold runCreateTable, runScript, script. rewrite forOf_concat.
  apply forOf_ext. intros x db'. apply createOne_script.
Qed.

(** *** The column loop *)

Lemma columnStep_foldl ins upd cols st :
  let st' := foldl (columnStep ins upd) st cols in
  ct_columns (tableSql st') =
    ct_columns (tableSql st) ++
    ((λ e, columnBuilder e.1 (dataTypeOf (type e.2)) e.2) <$>
       keptColumns ins upd cols) ∧
  ct_constraints (tableSql st') = ct_constraints (tableSql st) ∧
  ct_table (tableSql st') = ct_table (tableSql st) ∧
  _triggerKey st' =
    match last (incrementNames cols) with
    | Some c => Some c
    | None => _triggerKey st
    end ∧
  _haveAutoKey st' = _haveAutoKey st || hasAutoKey ins upd cols.
Proof.
  revert st. induction cols as [|[name o] cols IH]; intros st; cbn zeta.
  { unfold hasAutoKey, keptColumns. simpl.
    rewrite app_nil_r, orb_false_r. done. }
  cbn [foldl].
  destruct (IH (columnStep ins upd st (name, o))) as (H1 & H2 & H3 & H4 & H5).
  rewrite H1, H2, H3, H4, H5. clear IH H1 H2 H3 H4 H5.
  unfold incrementNames, hasAutoKey, keptColumns, columnStep.
  rewrite !filter_cons. simpl.
  destruct (decide (name ∉ [ins; upd])) as [Hkeep|Hskip];
    destruct (decide (type o = "increments")) as [Hinc|Hinc].
  - rewrite (bool_decide_eq_false_2 (name ∈ [ins; upd])) by done.
    rewrite (bool_decide_eq_true_2 (type o = "increments")) by done.
    simpl. rewrite last_cons, <- app_assoc. simpl.
    rewrite (bool_decide_eq_true_2 (Exists _ (_ :: _)))
      by (by apply Exists_cons_hd).
    repeat split; [by destruct (last _)|by rewrite orb_true_r].
  - rewrite (bool_decide_eq_false_2 (name ∈ [ins; upd])) by done.
    rewrite (bool_decide_eq_false_2 (type o = "increments")) by done.
    simpl. rewrite <- app_assoc. simpl.
    repeat split. f_equal. apply bool_decide_ext.
    rewrite Exists_cons. simpl. tauto.
  - rewrite (bool_decide_eq_true_2 (name ∈ [ins; upd]))
      by (by destruct (decide (name ∈ [ins; upd]))).
    rewrite (bool_decide_eq_true_2 (type o = "increments")) by done.
    simpl. rewrite last_cons. repeat split. by destruct (last _).
  - rewrite (bool_decide_eq_true_2 (name ∈ [ins; upd]))
      by (by destruct (decide (name ∈ [ins; upd]))).
    rewrite (bool_decide_eq_false_2 (type o = "increments")) by done.
    simpl. done.
Qed.

Lemma uniqueStep_foldl prim us st :
  let st' := foldl (uniqueStep prim) st us in
  ct_columns (tableSql st') = ct_columns (tableSql st) ∧
  _haveAutoKey st' = _haveAutoKey st ∧
  _triggerKey st' =
    if negb (keys_truthy prim) && negb (_haveAutoKey st) then
      match last us with
      | Some u => keys_first u
      | None => _triggerKey st
      end
    else _triggerKey st.
Proof.
  revert st. induction us as [|u us IH]; intros st; cbn zeta.
  { simpl. by destruct (_ && _). }
  cbn [foldl].
  destruct (IH (uniqueStep prim st u)) as (H1 & H2 & H3).
  rewrite H1, H2, H3. simpl. rewrite last_cons.
  repeat split.
  destruct (negb (keys_truthy prim) && negb (_haveAutoKey st)); [|done].
  by destruct (last us).
Qed.

Lemma buildTable_columns tableName table :
  let ts := property table ≫= timestamp in
  ct_columns (tableSql (buildTable tableName table)) =
    ((λ e, columnBuilder e.1 (dataTypeOf (type e.2)) e.2) <$>
       keptColumns (insertColumnName ts) (updateColumnName ts) (columns table))
    ++ (if timestamp_truthy ts
        then [plainColumn (insertColumnName ts) "text";
              plainColumn (updateColumnName ts) "text"]
        else []).
Proof.
  intros ts. unfold buildTable. fold ts.
  destruct (uniqueStep_foldl (property table ≫= primary)
              (default [] (property table ≫= unique))
              (primaryStep (property table ≫= primary)
                 (timestampStep ts
                    (foldl (columnStep (insertColumnName ts)
                              (updateColumnName ts))
                       (mkLocals (mkCreateTableNode tableName [] [] false)
                          (Some "rowid") false) (columns table)))))
    as (-> & _ & _).
  match goal with |- context [foldl ?f ?st ?l] =>
    destruct (columnStep_foldl (insertColumnName ts) (updateColumnName ts)
                l st) as (Hc & _);
    simpl in Hc; set (st1 := foldl f st l) in * end.
  assert (Hp : ∀ st, ct_columns (tableSql
                 (primaryStep (property table ≫= primary) st))
               = ct_columns (tableSql st)).
  { intros st. unfold primaryStep.
    destruct (property table ≫= primary); [|done].
    by destruct (negb _ && _). }
  rewrite Hp. unfold timestampStep.
  destruct (timestamp_truthy ts); simpl; rewrite Hc.
  - by rewrite <- !app_assoc.
  - by rewrite app_nil_r.
Qed.




(** *** One statement against the engine *)

Lemma guard_run accepts resolves s db :
  guard accepts resolves s db =
  let o := (exec accepts resolves (catalog db) s).1 in
  let c := (exec accepts resolves (catalog db) s).2 in
  (if is_failed o && negb (is_trigger_stmt s)
   then inl (Rejected s) else inr (),
   mkDb c (issued db ++ [(s, o)])
     (if is_failed o && is_trigger_stmt s
      then console db ++ [Rejected s] else console db)).
Proof.
  unfold guard. destruct (is_trigger_stmt s); unfold catch, execute;
    destruct (exec accepts resolves (catalog db) s) as [[] c]; reflexivity.
Qed.

Lemma guard_trigger accepts resolves t db :
  guard accepts resolves (CreateTrigger t) db =
  (inr (),
   mkDb (exec accepts resolves (catalog db) (CreateTrigger t)).2
     (issued db ++
      [(CreateTrigger t, (exec accepts resolves (catalog db) (CreateTrigger t)).1)])
     (if is_failed (exec accepts resolves (catalog db) (CreateTrigger t)).1
      then console db ++ [Rejected (CreateTrigger t)] else console db)).
Proof.
  rewrite guard_run. cbn zeta. simpl is_trigger_stmt.
  by rewrite andb_false_r, andb_true_r.
Qed.

Lemma exec_Failed accepts resolves c s :
  (exec accepts resolves c s).1 = Failed → (exec accepts resolves c s).2 = c.
Proof.
  unfold exec. destruct (accepts s); simpl; [|done].
  destruct s as [t ie|n|name t cols ine|t]; simpl.
  - destruct (tables c !! nocase t); [done|by destruct ie].
  - destruct (tables c !! nocase (ct_table n));
      [by destruct (ct_ifNotExists n)|].
    by destruct (indexes c !! nocase (ct_table n)).
  - destruct (tables c !! nocase t); [|done].
    destruct (indexes c !! nocase name); [by destruct ine|].
    destruct (tables c !! nocase name); [done|].
    by destruct (resolves _ _).
  - destruct (tables c !! nocase (trg_table t)); [|done].
    by destruct (triggers c !! nocase (trg_name t)).
Qed.

Lemma exec_trigger accepts resolves c t :
  let r := exec accepts resolves c (CreateTrigger t) in
  tables r.2 = tables c ∧ indexes r.2 = indexes c ∧
  (∀ k v, triggers c !! k = Some v → triggers r.2 !! k = Some v) ∧
  (r.1 = Applied → triggers r.2 !! nocase (trg_name t) = Some t).
Proof.
  unfold exec. destruct (accepts _); simpl; [|done].
  destruct (tables c !! nocase (trg_table t)); simpl; [|done].
  destruct (triggers c !! nocase (trg_name t)) eqn:Hex; simpl; [done|].
  repeat split.
  - intros k v Hk. rewrite lookup_insert_ne; [done|congruence].
  - intros _. by rewrite lookup_insert_eq.
Qed.

Lemma runScript_app accepts resolves l1 l2 db :
  runScript accepts resolves (l1 ++ l2) db =
  match runScript accepts resolves l1 db with
  | (inr _, db1) => runScript accepts resolves l2 db1
  | (inl e, db1) => (inl e, db1)
  end.
Proof.
  unfold runScript. rewrite forOf_app, bind_run.
  by destruct (forOf l1 (guard accepts resolves) db) as [[e|[]] db1].
Qed.


(** ** Column types *)

(** C4, as the code has it. Every column of the [create table] statement
    has data type ['text'], ['integer'] or ['blob'] (never ['real']); a
    declared column that is not named like a timestamp column is generated
    with the type the [switch] gives it, and the two timestamp columns are
    text: string, boolean, date and object are text, number and increments
    are integer, blob is blob, and every other type tag (['float'] and
    ['real'] among them) is text. *)
Theorem generated_dataType_space (tableName : string) (table : Table) :
  let node := tableSql (buildTable tableName table) in
  let ts := property table ≫= timestamp in
  Forall (λ d, col_dataType d ∈ ["text"; "integer"; "blob"])
         (ct_columns node) ∧
  (∀ name o, (name, o) ∈ columns table →
     name ∉ [insertColumnName ts; updateColumnName ts] →
     ∃ d, d ∈ ct_columns node ∧ col_name d = name ∧
          col_dataType d = dataTypeOf (type o)) ∧
  (timestamp_truthy ts = true →
     plainColumn (insertColumnName ts) "text" ∈ ct_columns node ∧
     plainColumn (updateColumnName ts) "text" ∈ ct_columns node) ∧
  (∀ ty,
     (ty ∈ ["string"; "boolean"; "date"; "object"] → dataTypeOf ty = "text") ∧
     (ty ∈ ["number"; "increments"] → dataTypeOf ty = "integer") ∧
     (ty = "blob" → dataTypeOf ty = "blob") ∧
     (ty ∉ ["string"; "boolean"; "date"; "object"; "number"; "increments";
            "blob"] → dataTypeOf ty = "text")).
Proof.
  intros node ts. subst node. rewrite buildTable_columns. fold ts.
  split; [|split; [|split]].
  - apply Forall_app. split.
    + apply Forall_fmap, Forall_forall. intros [name o] _. simpl.
      assert (Hdt : dataTypeOf (type o) ∈ ["text"; "integer"; "blob"]).
      { unfold dataTypeOf. repeat case_bool_decide; repeat constructor. }
      unfold columnBuilder. by case_bool_decide.
    + destruct (timestamp_truthy ts); [|constructor].
      repeat constructor.
  - intros name o Hin Hkeep.
    exists (columnBuilder name (dataTypeOf (type o)) o).
    split; [|unfold columnBuilder; by case_bool_decide].
    apply elem_of_app. left.
    apply (list_elem_of_fmap_2
             (λ e, columnBuilder e.1 (dataTypeOf (type e.2)) e.2) _ (name, o)).
    by apply list_elem_of_filter.
  - intros ->. split; apply elem_of_app; right; repeat constructor.
  - intros ty. repeat split; intros H.
    + rewrite !elem_of_cons, elem_of_nil in H.
      destruct H as [->|[->|[->|[->|[]]]]]; reflexivity.
    + rewrite !elem_of_cons, elem_of_nil in H.
      destruct H as [->|[->|[]]]; reflexivity.
    + subst ty. reflexivity.
    + unfold dataTypeOf. repeat case_bool_decide; try reflexivity;
        exfalso; apply H; rewrite !elem_of_cons, ?elem_of_nil in *; tauto.
Qed.

(** C4, as stated, fails on a real (float) column: the specification's
    normalization sends it to real, the code to text. *)
Lemma float_column_becomes_text :
  spec_dataType "float" = Some "real" ∧
  dataTypeOf "float" = "text" ∧
  issuedDataTypes
    (runCreateTable acceptAll declaredColumns [("user", userTable)] false emptyDb).2
  = [("email", "text"); ("score", "text");
     ("createAt", "text"); ("updateAt", "text")].
Proof. vm_compute. done. Qed.

(** ** Time triggers *)




(** An increments column named like a timestamp column is left out of the
    table as declared, and still names the key: the triggers compare on
    the text column [createAt], whether or not the table has an
    auto-increment column besides. *)
Example skipped_increments_column_is_trigger_key :
  hasAutoKey "createAt" "updateAt" (columns stampedTable) = false ∧
  effectiveKey stampedTable = "createAt" ∧
  issuedTriggerKeys
    (runCreateTable acceptAll declaredColumns [("t", stampedTable)] false
       emptyDb).2
  = ["createAt"; "createAt"] ∧
  issuedDataTypes
    (runCreateTable acceptAll declaredColumns [("t", stampedTable)] false
       emptyDb).2
  = [("a", "text"); ("createAt", "text"); ("updateAt", "text")] ∧
  hasAutoKey "createAt" "updateAt" (columns stampedIdTable) = true ∧
  issuedTriggerKeys
    (runCreateTable acceptAll declaredColumns [("t", stampedIdTable)] false
       emptyDb).2
  = ["createAt"; "createAt"].
Proof. vm_compute. done. Qed.

(** ** Trigger failures *)

Lemma exec_agree acceptsA acceptsB resolves cA cB s :
  is_trigger_stmt s = false → acceptsA s = acceptsB s →
  tables cA = tables cB → indexes cA = indexes cB →
  (exec acceptsA resolves cA s).1 = (exec acceptsB resolves cB s).1 ∧
  tables (exec acceptsA resolves cA s).2 = tables (exec acceptsB resolves cB s).2 ∧
  indexes (exec acceptsA resolves cA s).2 = indexes (exec acceptsB resolves cB s).2.
Proof.
  intros Hs Hacc Ht Hi. unfold exec. rewrite Hacc.
  destruct (acceptsB s); simpl; [|done].
  destruct s as [t ie|n|name t cols ine|t]; [| | |done]; rewrite <- ?Ht, <- ?Hi.
  - destruct (tables cA !! nocase t); simpl; [|done]. by rewrite Hi.
  - destruct (tables cA !! nocase (ct_table n)); simpl; [done|].
    destruct (indexes cA !! nocase (ct_table n)); simpl; [done|].
    by rewrite Ht.
  - destruct (tables cA !! nocase t); simpl; [|done].
    destruct (indexes cA !! nocase name); simpl; [done|].
    destruct (tables cA !! nocase name); simpl; [done|].
    destruct (resolves _ _); simpl; [|done]. by rewrite Hi.
Qed.

Lemma runScript_agree acceptsA acceptsB resolves l dbA dbB :
  (∀ s, is_trigger_stmt s = false → acceptsA s = acceptsB s) →
  tables (catalog dbA) = tables (catalog dbB) →
  indexes (catalog dbA) = indexes (catalog dbB) →
  (runScript acceptsA resolves l dbA).1 = (runScript acceptsB resolves l dbB).1 ∧
  tables (catalog (runScript acceptsA resolves l dbA).2)
    = tables (catalog (runScript acceptsB resolves l dbB).2) ∧
  indexes (catalog (runScript acceptsA resolves l dbA).2)
    = indexes (catalog (runScript acceptsB resolves l dbB).2).
Proof.
  intros Hacc. revert dbA dbB.
  induction l as [|s l IH]; intros dbA dbB Ht Hi; [done|].
  unfold runScript. rewrite !forOf_cons.
  destruct (is_trigger_stmt s) eqn:Hs.
  - destruct s as [| | |t]; try discriminate Hs.
    rewrite !guard_trigger.
    destruct (exec_trigger acceptsA resolves (catalog dbA) t) as (HtA & HiA & _).
    destruct (exec_trigger acceptsB resolves (catalog dbB) t) as (HtB & HiB & _).
    apply IH; simpl; congruence.
  - rewrite !guard_run. cbn zeta. rewrite Hs. simpl negb.
    rewrite !andb_true_r.
    destruct (exec_agree acceptsA acceptsB resolves (catalog dbA) (catalog dbB) s
                Hs (Hacc s Hs) Ht Hi) as (Ho & Ht' & Hi').
    rewrite Ho. destruct (is_failed _); simpl; [done|].
    by apply IH.
Qed.

(** C2. [createTimeTrigger] resolves whatever the engine does with its
    statement, a failure is printed by [console.error], and the result of a
    whole run, with the tables and indexes it leaves, is the same for two
    engines that differ only in which trigger statements they reject. *)
Theorem trigger_failure_is_swallowed
  (acceptsA acceptsB : Stmt → bool)
  (resolves : CreateTableNode → list string → bool)
  (tableMap : list (string * Table))
  (dropTableBeforeInit : bool) (dbA dbB : Db)
  (table : string) (event : TriggerEvent) (column : string)
  (key : option string) :
  (∀ s, is_trigger_stmt s = false → acceptsA s = acceptsB s) →
  tables (catalog dbA) = tables (catalog dbB) →
  indexes (catalog dbA) = indexes (catalog dbB) →
  let stmt := CreateTrigger (triggerSql table event column
                               (default "rowid" key)) in
  let t := createTimeTrigger acceptsA resolves table event column key dbA in
  let rA := runCreateTable acceptsA resolves tableMap dropTableBeforeInit dbA in
  let rB := runCreateTable acceptsB resolves tableMap dropTableBeforeInit dbB in
  t.1 = inr () ∧
  ((exec acceptsA resolves (catalog dbA) stmt).1 = Failed →
     console t.2 = console dbA ++ [Rejected stmt] ∧
     catalog t.2 = catalog dbA) ∧
  rA.1 = rB.1 ∧
  tables (catalog rA.2) = tables (catalog rB.2) ∧
  indexes (catalog rA.2) = indexes (catalog rB.2).
Proof.
  intros Hacc Ht Hi stmt t rA rB.
  assert (Hguard : t = guard acceptsA resolves stmt dbA) by reflexivity.
  rewrite Hguard. subst stmt. rewrite guard_trigger. simpl.
  split; [done|]. split.
  - intros Hfail. rewrite Hfail. simpl. split; [done|].
    by apply exec_Failed.
  - subst rA rB. rewrite !runCreateTable_script.
    by apply runScript_agree.
Qed.

Lemma trigger_failure_is_swallowed_witness :
  (runCreateTable acceptAll declaredColumns [("test", testTable)] false emptyDb).1 =
  (runCreateTable rejectTriggers declaredColumns [("test", testTable)] false emptyDb).1.
Proof.
  refine (proj1 (proj2 (proj2
    (trigger_failure_is_swallowed acceptAll rejectTriggers declaredColumns
       [("test", testTable)] false emptyDb emptyDb "test" Insert "createAt"
       None _ eq_refl eq_refl)))).
  intros s Hs. unfold acceptAll, rejectTriggers. by rewrite Hs.
Defined.

(** ** Running the table loop twice *)

Lemma names_le_refl c : names_le c c.
Proof. by repeat split. Qed.

Lemma names_le_trans c1 c2 c3 :
  names_le c1 c2 → names_le c2 c3 → names_le c1 c3.
Proof. intros (?&?&?) (?&?&?). repeat split; auto. Qed.

Lemma created_mono c c' s : names_le c c' → created c s → created c' s.
Proof. intros (Ht & Hi & Hg). destruct s; simpl; intuition auto. Qed.

Lemma settled_mono accepts c c' s :
  names_le c c' → settled accepts c s → settled accepts c' s.
Proof.
  intros Hle [[Ha Hc]|H]; [left|by right].
  split; [done|]. by eapply created_mono.
Qed.

Lemma is_Some_insert_mono {V} (m : gmap string V) k v k' :
  is_Some (m !! k') → is_Some (<[k := v]> m !! k').
Proof.
  intros H. destruct (decide (k = k')) as [->|Hne].
  - rewrite lookup_insert_eq. by eexists.
  - by rewrite lookup_insert_ne.
Qed.

Lemma exec_grows accepts resolves c s :
  ifne s = true → names_le c (exec accepts resolves c s).2.
Proof.
  intros Hs. unfold exec.
  destruct (accepts s); simpl; [|apply names_le_refl].
  destruct s as [t ie|n|name t cols ine|t]; [done| | |].
  - destruct (tables c !! nocase (ct_table n)); simpl;
      [apply names_le_refl|].
    destruct (indexes c !! nocase (ct_table n)); simpl;
      [apply names_le_refl|].
    repeat split; simpl; auto using is_Some_insert_mono.
  - destruct (tables c !! nocase t); simpl; [|apply names_le_refl].
    destruct (indexes c !! nocase name); simpl; [apply names_le_refl|].
    destruct (tables c !! nocase name); simpl; [apply names_le_refl|].
    destruct (resolves _ _); simpl; [|apply names_le_refl].
    repeat split; simpl; auto using is_Some_insert_mono.
  - destruct (tables c !! nocase (trg_table t)); simpl;
      [|apply names_le_refl].
    destruct (triggers c !! nocase (trg_name t)); simpl;
      [apply names_le_refl|].
    repeat split; simpl; auto using is_Some_insert_mono.
Qed.

(** A guarded [create] that did not fail was accepted, and its object is
    there afterwards. *)
Lemma exec_created accepts resolves c s :
  ifne s = true → (exec accepts resolves c s).1 ≠ Failed →
  accepts s = true ∧ created (exec accepts resolves c s).2 s.
Proof.
  intros Hs. unfold exec.
  destruct (accepts s); simpl; [|done]. intros Hok. split; [done|].
  destruct s as [t ie|n|name t cols ine|t]; [done| | |]; simpl in *.
  - destruct (tables c !! nocase (ct_table n)) eqn:Hex; simpl;
      [by rewrite Hex|].
    destruct (indexes c !! nocase (ct_table n)); simpl in *; [done|].
    rewrite lookup_insert_eq. by eexists.
  - destruct (tables c !! nocase t) eqn:Ht; simpl in *; [|done].
    destruct (indexes c !! nocase name) eqn:Hex; simpl;
      [by rewrite Ht, Hex|].
    destruct (tables c !! nocase name); simpl in *; [done|].
    destruct (resolves _ _); simpl in *; [|done].
    rewrite Ht, lookup_insert_eq. by split; eexists.
  - destruct (tables c !! nocase (trg_table t)) eqn:Ht; simpl in *; [|done].
    destruct (triggers c !! nocase (trg_name t)) eqn:Hex; simpl;
      [by rewrite Ht, Hex|].
    rewrite Ht, lookup_insert_eq. by split; eexists.
Qed.

(** A trigger statement that fails although its table exists was rejected
    by the engine as a statement. *)
Lemma exec_trigger_rejected accepts resolves c t :
  is_Some (tables c !! nocase (trg_table t)) →
  (exec accepts resolves c (CreateTrigger t)).1 = Failed →
  accepts (CreateTrigger t) = false.
Proof.
  intros [n Hn]. unfold exec.
  destruct (accepts _); simpl; [|done]. rewrite Hn.
  by destruct (triggers c !! nocase (trg_name t)).
Qed.

(** Against a catalog in which it is settled, a guarded statement changes
    nothing and its guard resolves. *)
Lemma guard_settled accepts resolves s db :
  ifne s = true → settled accepts (catalog db) s →
  ∃ o cons, guard accepts resolves s db =
              (inr (), mkDb (catalog db) (issued db ++ [(s, o)]) cons) ∧
            o ≠ Applied.
Proof.
  intros Hs Hset. rewrite guard_run. cbn zeta.
  destruct Hset as [[Hacc Hc]|[Htrg Hacc]].
  - assert (Hexec : exec accepts resolves (catalog db) s = (Skipped, catalog db)).
    { unfold exec. rewrite Hacc. simpl.
      destruct s as [t ie|n|name t cols ine|t]; simpl in *.
      - done.
      - destruct Hc as [x ->]. by rewrite Hs.
      - destruct Hc as [[x ->] [y ->]]. by rewrite Hs.
      - by destruct Hc as [[x ->] [y ->]]. }
    rewrite Hexec. simpl. by eexists Skipped, _.
  - assert (Hexec : exec accepts resolves (catalog db) s = (Failed, catalog db)).
    { unfold exec. by rewrite Hacc. }
    rewrite Hexec, Htrg. simpl. by eexists Failed, _.
Qed.

Lemma runScript_settled accepts resolves l db :
  Forall (λ s, ifne s = true) l →
  Forall (settled accepts (catalog db)) l →
  ∃ db2 log, runScript accepts resolves l db = (inr (), db2) ∧
    catalog db2 = catalog db ∧
    issued db2 = issued db ++ log ∧
    log.*1 = l ∧
    Forall (λ so, so.2 ≠ Applied) log.
Proof.
  revert db. induction l as [|s l IH]; intros db Hifne Hset.
  - exists db, []. by rewrite app_nil_r.
  - apply Forall_cons in Hifne as [Hs Hifne].
    apply Forall_cons in Hset as [Hset1 Hset].
    destruct (guard_settled accepts resolves s db Hs Hset1) as (o & cons & Hg & Ho).
    unfold runScript. rewrite forOf_cons, Hg.
    destruct (IH (mkDb (catalog db) (issued db ++ [(s, o)]) cons)
                Hifne Hset) as (db2 & log & Hrun & Hcat & Hiss & Hfst & Hno).
    exists db2, ((s, o) :: log). split; [exact Hrun|].
    split; [exact Hcat|]. split; [|split].
    + rewrite Hiss. simpl. by rewrite <- app_assoc.
    + simpl. by f_equal.
    + by constructor.
Qed.

Lemma foldl_preserves {A B} (f : A → B → A) (P : A → Prop) l a :
  (∀ a b, P a → P (f a b)) → P a → P (foldl f a l).
Proof.
  intros Hf. revert a. induction l as [|b l IH]; intros a Ha; simpl; auto.
Qed.

Lemma buildTable_table tableName table :
  ct_table (tableSql (buildTable tableName table)) = tableName.
Proof.
  unfold buildTable.
  apply (foldl_preserves _ (λ st, ct_table (tableSql st) = tableName)).
  { by intros st u H. }
  unfold primaryStep.
  assert (Hts : ∀ ts st, ct_table (tableSql st) = tableName →
                  ct_table (tableSql (timestampStep ts st)) = tableName).
  { intros ts st H. unfold timestampStep. by destruct (timestamp_truthy ts). }
  assert (Hcols : ∀ i u st l, ct_table (tableSql st) = tableName →
                  ct_table (tableSql (foldl (columnStep i u) st l)) = tableName).
  { intros i u st l H.
    apply (foldl_preserves _ (λ st, ct_table (tableSql st) = tableName));
      [|done].
    intros st' [name o] H'. unfold columnStep. by case_bool_decide. }
  destruct (property table ≫= primary) as [k|].
  - destruct (negb _ && _); simpl; by apply Hts, Hcols.
  - by apply Hts, Hcols.
Qed.

Lemma scriptOne_ifne entry : Forall (λ s, ifne s = true) (scriptOne false entry).
Proof.
  unfold scriptOne. simpl. constructor; [done|].
  apply Forall_app. split.
  - apply Forall_fmap, Forall_forall. by intros i _.
  - unfold triggerStmts. destruct (timestamp_truthy _); repeat constructor.
Qed.

Lemma script_cons dropTableBeforeInit entry tableMap :
  script dropTableBeforeInit (entry :: tableMap) =
  scriptOne dropTableBeforeInit entry ++ script dropTableBeforeInit tableMap.
Proof. reflexivity. Qed.

Lemma script_ifne tableMap : Forall (λ s, ifne s = true) (script false tableMap).
Proof.
  induction tableMap as [|e tm IH]; [constructor|].
  rewrite script_cons.
  apply Forall_app. split; [apply scriptOne_ifne|exact IH].
Qed.

(** What a resolved guard leaves behind. *)
Lemma guard_resolved accepts resolves s db db' :
  ifne s = true →
  (∀ t, s = CreateTrigger t →
        is_Some (tables (catalog db) !! nocase (trg_table t))) →
  guard accepts resolves s db = (inr (), db') →
  names_le (catalog db) (catalog db') ∧ settled accepts (catalog db') s.
Proof.
  intros Hs Htbl Hg. rewrite guard_run in Hg. cbn zeta in Hg.
  assert (Hcat : catalog db' = (exec accepts resolves (catalog db) s).2).
  { destruct (is_failed _ && negb _); [done|]. by injection Hg as <-. }
  rewrite Hcat. split; [by apply exec_grows|].
  destruct ((exec accepts resolves (catalog db) s).1) eqn:Ho.
  - left. apply exec_created; [done|]. by rewrite Ho.
  - left. apply exec_created; [done|]. by rewrite Ho.
  - simpl in Hg. destruct (is_trigger_stmt s) eqn:Htrg; [|done].
    right. split; [done|].
    destruct s as [| | |t]; try discriminate Htrg.
    eapply exec_trigger_rejected; [by apply Htbl|exact Ho].
Qed.

Lemma runScript_first accepts resolves l db db' :
  Forall (λ s, ifne s = true) l →
  Forall (λ s, ∀ t, s = CreateTrigger t →
                 is_Some (tables (catalog db) !! nocase (trg_table t))) l →
  runScript accepts resolves l db = (inr (), db') →
  names_le (catalog db) (catalog db') ∧
  ∀ c1, names_le (catalog db') c1 → Forall (settled accepts c1) l.
Proof.
  revert db. induction l as [|s l IH]; intros db Hifne Htbl Hrun.
  - injection Hrun as <-. split; [apply names_le_refl|by constructor].
  - apply Forall_cons in Hifne as [Hs Hifne].
    apply Forall_cons in Htbl as [Ht Htbl].
    unfold runScript in Hrun. rewrite forOf_cons in Hrun.
    destruct (guard accepts resolves s db) as [[e|[]] db1] eqn:Hg; [done|].
    destruct (guard_resolved accepts resolves s db db1 Hs Ht Hg) as [Hle Hset].
    destruct (IH db1 Hifne) as [Hle' Hall]; [|exact Hrun|].
    { eapply Forall_impl; [exact Htbl|]. intros s' H t Hst.
      apply Hle. by apply H. }
    split; [by eapply names_le_trans|].
    intros c1 Hc1. constructor; [|by apply Hall].
    eapply settled_mono; [|exact Hset]. by eapply names_le_trans.
Qed.

Lemma scriptOne_first accepts resolves entry db db' :
  runScript accepts resolves (scriptOne false entry) db = (inr (), db') →
  names_le (catalog db) (catalog db') ∧
  ∀ c1, names_le (catalog db') c1 →
        Forall (settled accepts c1) (scriptOne false entry).
Proof.
  intros Hrun. pose proof (scriptOne_ifne entry) as Hifne.
  unfold scriptOne in *. simpl in *.
  apply Forall_cons in Hifne as [Hs Hifne].
  unfold runScript in Hrun. rewrite forOf_cons in Hrun.
  destruct (guard accepts resolves _ db) as [[e|[]] db1] eqn:Hg; [done|].
  destruct (guard_resolved accepts resolves _ db db1 Hs ltac:(done) Hg) as [Hle Hset].
  assert (Htable : is_Some (tables (catalog db1) !! nocase entry.1)).
  { destruct Hset as [[_ Hc]|[? _]]; [|done].
    simpl in Hc. by rewrite buildTable_table in Hc. }
  destruct (runScript_first accepts resolves _ db1 db' Hifne) as [Hle' Hall];
    [|exact Hrun|].
  { apply Forall_app. split.
    - apply Forall_fmap, Forall_forall. by intros i _ t Heq.
    - unfold triggerStmts. destruct (timestamp_truthy _); [|constructor].
      repeat constructor; intros t Heq; injection Heq as <-; exact Htable. }
  split; [by eapply names_le_trans|].
  intros c1 Hc1. constructor; [|by apply Hall].
  eapply settled_mono; [|exact Hset]. by eapply names_le_trans.
Qed.

Lemma script_first accepts resolves tableMap db db' :
  runScript accepts resolves (script false tableMap) db = (inr (), db') →
  names_le (catalog db) (catalog db') ∧
  ∀ c1, names_le (catalog db') c1 →
        Forall (settled accepts c1) (script false tableMap).
Proof.
  revert db.
  induction tableMap as [|e tm IH]; intros db Hrun.
  - injection Hrun as <-. split; [apply names_le_refl|by constructor].
  - rewrite script_cons in *. rewrite runScript_app in Hrun.
    destruct (runScript accepts resolves (scriptOne false e) db) as [[err|[]] db1]
      eqn:Hone; [done|].
    apply scriptOne_first in Hone as [Hle Hall].
    apply IH in Hrun as [Hle' Hall'].
    split; [by eapply names_le_trans|].
    intros c1 Hc1. apply Forall_app. split; [|by apply Hall'].
    apply Hall. by eapply names_le_trans.
Qed.

(** C1, as the code has it. With [dropTableBeforeInit] off (its default), a
    second run of [runCreateTable] over a database on which a first run of
    the same table map resolved resolves too, sends the same statements,
    applies none of them and leaves the catalog (tables, indexes and
    triggers) as the first run left it. *)
Theorem second_run_applies_nothing
  (accepts : Stmt → bool)
  (resolves : CreateTableNode → list string → bool)
  (tableMap : list (string * Table)) (db0 db1 : Db) :
  runCreateTable accepts resolves tableMap false db0 = (inr (), db1) →
  ∃ db2 log,
    runCreateTable accepts resolves tableMap false db1 = (inr (), db2) ∧
    catalog db2 = catalog db1 ∧
    issued db2 = issued db1 ++ log ∧
    log.*1 = script false tableMap ∧
    Forall (λ so, so.2 ≠ Applied) log.
Proof.
  intros Hrun. rewrite runCreateTable_script in Hrun.
  apply script_first in Hrun as [_ Hall].
  destruct (runScript_settled accepts resolves (script false tableMap) db1
              (script_ifne tableMap) (Hall _ (names_le_refl _)))
    as (db2 & log & H).
  exists db2, log. by rewrite runCreateTable_script.
Qed.

Lemma second_run_applies_nothing_witness :
  ∃ db2 log,
    runCreateTable acceptAll declaredColumns twoTables false syncedDb = (inr (), db2) ∧
    catalog db2 = catalog syncedDb ∧
    issued db2 = issued syncedDb ++ log ∧
    Forall (λ so, so.2 ≠ Applied) log.
Proof.
  destruct (second_run_applies_nothing acceptAll declaredColumns twoTables emptyDb syncedDb
              eq_refl)
    as (db2 & log & H1 & H2 & H3 & _ & H5).
  exists db2, log. done.
Defined.

(** C1, as stated, fails with [dropTableBeforeInit] on: the second run
    drops the table the first run created and applies every statement
    again. *)
Lemma second_run_with_drop_applies_all :
  let r1 := runCreateTable acceptAll declaredColumns [("test", testTable)] true emptyDb in
  let r2 := runCreateTable acceptAll declaredColumns [("test", testTable)] true r1.2 in
  r1.1 = inr () ∧ r2.1 = inr () ∧
  head (drop (length (issued r1.2)) (issued r2.2))
    = Some (DropTable "test" true, Applied) ∧
  (drop (length (issued r1.2)) (issued r2.2)).*2
    = [Applied; Applied; Applied; Applied; Applied].
Proof. vm_compute. done. Qed.

End SqliteBuilder.

(* ===================================================================== *)
(** * The bun worker: [run] and [onmessage]                                *)
(* ===================================================================== *)

Module BunWorker.

(** Modelled from the spec: the worker's type declarations (./type) are not
    among the sources. [RunMode] is the mode of a run request, one of
    query, raw and exec. *)
Inductive RunMode := Query | Raw | Exec.

(** What the worker code can throw: a [TypeError] of its own (a method
    called on [undefined]) or an error of the SQLite binding. *)
Inductive Error :=
| TypeError (msg : string)
| SQLiteError (msg : string).

Section Worker.

(** ** The SQLite binding

    [Conn] is the state of an opened [Database], [Row] a result row, [Param]
    a bound parameter. [prepare] is [db.query(sql)] / [db.prepare(sql)]
    (cached or not), which throws on a statement that does not compile.
    [step] is one execution of a prepared statement: it is what both
    [stmt.all] (which returns the rows) and [stmt.run] (which drops them)
    do. It gives the rows or the error thrown, and in both cases the
    connection as the execution leaves it: an execution that throws can
    have changed the database before (rows written before a constraint
    failed, an open transaction rolled back). *)
Context {Conn Row Param : Type}.
Variable open : string → Error + Conn.
Variable close : Conn → Error + Conn.
Variable prepare : bool → string → Conn → option Error.
Variable step : string → list Param → Conn → (Error + list Row) * Conn.
Variable last_insert_rowid : Conn → Z.
Variable changes : Conn → Z.

(** [QueryResult]: [insertId] and [numAffectedRows] are optional. *)
Record QueryResult := mkQueryResult {
  rows : list Row;
  insertId : option Z;
  numAffectedRows : option Z
}.

(** The module's variables [let db: Database] and [let cache: boolean]. *)
Record Worker := mkWorker {
  db : option Conn;
  cache : bool
}.

(** Worker code: it returns or throws, and changes the module's state. *)
Definition W (A : Type) : Type := Worker → (Error + A) * Worker.

#[local] Instance W_ret : MRet W := λ A (x : A) w, (inr x, w).

#[local] Instance W_bind : MBind W := λ A B (k : A → W B) (m : W A) w,
  match m w with
  | (inr x, w') => k x w'
  | (inl e, w') => (inl e, w')
  end.

Definition throw {A} (e : Error) : W A := λ w, (inl e, w).

(** Reading [db] to call a method on it: a [TypeError] while [db] is
    [undefined]. *)
Definition the_db : W Conn := λ w,
  match db w with
  | Some d => (inr d, w)
  | None => (inl (TypeError "undefined is not an object"), w)
  end.

Definition set_db (d : Conn) : W unit := λ w, (inr (), mkWorker (Some d) (cache w)).

Definition set_cache (c : bool) : W unit := λ w, (inr (), mkWorker (db w) c).

Definition get_cache : W bool := λ w, (inr (cache w), w).

(** [db[cache ? 'query' : 'prepare'](sql)]: the statement handle is its text. *)
Definition db_prepare (sql : string) : W string :=
  d ← the_db;
  c ← get_cache;
  match prepare c sql d return W string with
  | Some e => throw e
  | None => mret sql
  end.

(** [stmt.all(parameters)] *)
Definition stmt_all (stmt : string) (parameters : list Param)
  : W (list Row) :=
  d ← the_db;
  match step stmt parameters d return W (list Row) with
  | (inr rs, d') => set_db d' ;; mret rs
  | (inl e, d') => set_db d' ;; throw e
  end.

(** [stmt.run(parameters)] *)
Definition stmt_run (stmt : string) (parameters : list Param) : W unit :=
  d ← the_db;
  match step stmt parameters d return W unit with
  | (inr _, d') => set_db d'
  | (inl e, d') => set_db d' ;; throw e
  end.

Definition mode_is_exec (m : RunMode) : bool :=
  match m with Exec => true | _ => false end.

Definition mode_is_query (m : RunMode) : bool :=
  match m with Query => true | _ => false end.

Definition run (mode : RunMode) (sql : string) (parameters : list Param)
  : W QueryResult :=
  stmt ← db_prepare sql;
  rows ← (if negb (mode_is_exec mode) return W (list Row)
          then stmt_all stmt parameters else mret []);
  if mode_is_query mode then mret (mkQueryResult rows None None)
  else
    stmt_run stmt parameters ;;
    d ← the_db;
    let id := last_insert_rowid d in
    let changes := changes d in
    mret (mkQueryResult rows (Some id) (Some changes)).

(** ** Messages *)

(** Modelled from the spec: [MainMsg] of ./type, the request variants
    init (location, here with the [cache] flag the handler reads), run
    (mode, SQL text, bound parameters) and close. *)
Inductive MainMsg :=
| MsgRun (mode : RunMode) (sql : string) (parameters : list Param)
| MsgClose
| MsgInit (url : string) (cache : bool).

Definition msg_type (m : MainMsg) : string :=
  match m with
  | MsgRun _ _ _ => "run"
  | MsgClose => "close"
  | MsgInit _ _ => "init"
  end.

(** Modelled from the spec: [WorkerMsg] of ./type, [{type, data|null,
    err|null}]. *)
Record WorkerMsg := mkWorkerMsg {
  type : string;
  data : option QueryResult;
  err : option Error
}.

(** The [switch] inside the [try]: what it assigns to [ret.data], if it
    gets that far. *)
Definition handle (m : MainMsg) : W (option QueryResult) :=
  match m with
  | MsgRun mode sql parameters =>
    r ← run mode sql parameters; mret (Some r)
  | MsgClose =>
    d ← the_db;
    match close d return W (option QueryResult) with
    | inr d' => set_db d' ;; mret None
    | inl e => throw e
    end
  | MsgInit url c =>
    match open url return W (option QueryResult) with
    | inr d => set_db d ;; set_cache c ;; mret None
    | inl e => throw e
    end
  end.

(** [onmessage]: the new state of the module and the messages posted. *)
Definition onmessage (m : MainMsg) (w : Worker) : Worker * list WorkerMsg :=
  let ret := mkWorkerMsg (msg_type m) None None in
  match handle m w with
  | (inr d, w') => (w', [mkWorkerMsg (type ret) d (err ret)])
  | (inl error, w') => (w', [mkWorkerMsg (type ret) (data ret) (Some error)])
  end.

Lemma W_bind_run {A B} (m : W A) (k : A → W B) w :
  (m ≫= k) w =
  match m w with
  | (inr x, w') => k x w'
  | (inl e, w') => (inl e, w')
  end.
Proof. reflexivity. Qed.

(** *** [run], mode by mode, on an opened database *)

Lemma run_query_ok sql parameters w d rs d1 :
  db w = Some d → prepare (cache w) sql d = None →
  step sql parameters d = (inr rs, d1) →
  run Query sql parameters w =
    (inr (mkQueryResult rs None None), mkWorker (Some d1) (cache w)).
Proof.
  intros Hdb Hprep Hstep. destruct w as [dbw c]. simpl in *. subst dbw.
  unfold run, db_prepare, stmt_all, the_db, get_cache, set_db.
  repeat (rewrite ?W_bind_run; simpl; rewrite ?Hprep, ?Hstep).
  reflexivity.
Qed.

Lemma run_exec_ok sql parameters w d rs d1 :
  db w = Some d → prepare (cache w) sql d = None →
  step sql parameters d = (inr rs, d1) →
  run Exec sql parameters w =
    (inr (mkQueryResult [] (Some (last_insert_rowid d1)) (Some (changes d1))),
     mkWorker (Some d1) (cache w)).
Proof.
  intros Hdb Hprep Hstep. destruct w as [dbw c]. simpl in *. subst dbw.
  unfold run, db_prepare, stmt_run, the_db, get_cache, set_db.
  repeat (rewrite ?W_bind_run; simpl; rewrite ?Hprep, ?Hstep).
  reflexivity.
Qed.

Lemma run_raw_ok sql parameters w d rs1 d1 rs2 d2 :
  db w = Some d → prepare (cache w) sql d = None →
  step sql parameters d = (inr rs1, d1) →
  step sql parameters d1 = (inr rs2, d2) →
  run Raw sql parameters w =
    (inr (mkQueryResult rs1 (Some (last_insert_rowid d2)) (Some (changes d2))),
     mkWorker (Some d2) (cache w)).
Proof.
  intros Hdb Hprep Hstep1 Hstep2. destruct w as [dbw c]. simpl in *.
  subst dbw.
  unfold run, db_prepare, stmt_all, stmt_run, the_db, get_cache, set_db.
  repeat (rewrite ?W_bind_run; simpl; rewrite ?Hprep, ?Hstep1, ?Hstep2).
  reflexivity.
Qed.

(** C6. For every request the worker posts exactly one message; its [type]
    is the request's, its [err] is set exactly when handling the request
    threw (and is what was thrown), and then its [data] is [null]. *)
Theorem onmessage_posts_one_response (m : MainMsg) (w : Worker) :
  ∃ resp,
    (onmessage m w).2 = [resp] ∧
    type resp = msg_type m ∧
    (∀ e, err resp = Some e ↔ (handle m w).1 = inl e) ∧
    (is_Some (err resp) ↔ ∃ e, (handle m w).1 = inl e) ∧
    (is_Some (err resp) → data resp = None) ∧
    (∀ d, (handle m w).1 = inr d → data resp = d) ∧
    (type resp ∈ ["init"; "run"; "close"]).
Proof.
  unfold onmessage. destruct (handle m w) as [[e|d] w'] eqn:Hh; simpl.
  - eexists. split; [reflexivity|]. simpl. repeat split.
    + by intros [= ->].
    + by intros [= ->].
    + by exists e.
    + by eexists.
    + done.
    + destruct m; simpl; repeat constructor.
  - eexists. split; [reflexivity|]. simpl. repeat split.
    + done.
    + done.
    + by intros [? ?].
    + by intros [? ?].
    + by intros [? ?].
    + by intros ? [= ->].
    + destruct m; simpl; repeat constructor.
Qed.

(** C10, as the code has it. A [run] request of mode ['raw'] executes its
    statement with [stmt.all] and, only when that did not throw, once more
    with [stmt.run], on the state the first execution left. When both
    executions succeed the response carries the rows of the first and the
    [insertId] and [numAffectedRows] read after the second, and the
    database is left in the state after the second. When [db] is unset,
    the statement does not compile or one of the executions throws, the
    response carries the error and no data, and the database is left as
    the executions made have left it. *)
Theorem run_raw_executes_twice
  (sql : string) (parameters : list Param) (w : Worker) :
  let r := onmessage (MsgRun Raw sql parameters) w in
  let failed := λ e, [mkWorkerMsg "run" None (Some e)] in
  match db w with
  | None => r = (w, failed (TypeError "undefined is not an object"))
  | Some d =>
    match prepare (cache w) sql d with
    | Some e => r = (w, failed e)
    | None =>
      match step sql parameters d with
      | (inl e, d1) => r = (mkWorker (Some d1) (cache w), failed e)
      | (inr rs1, d1) =>
        match step sql parameters d1 with
        | (inl e, d2) => r = (mkWorker (Some d2) (cache w), failed e)
        | (inr rs2, d2) =>
          r = (mkWorker (Some d2) (cache w),
               [mkWorkerMsg "run"
                  (Some (mkQueryResult rs1 (Some (last_insert_rowid d2))
                           (Some (changes d2))))
                  None])
        end
      end
    end
  end.
Proof.
  intros r failed. subst r failed. destruct w as [[d|] c]; simpl db;
    simpl cache; [|reflexivity].
  unfold onmessage, handle, run, db_prepare, stmt_all, stmt_run, the_db,
    get_cache, set_db, throw.
  destruct (prepare c sql d) as [e|] eqn:Hprep.
  { repeat (rewrite ?W_bind_run; simpl; rewrite ?Hprep). reflexivity. }
  destruct (step sql parameters d) as [[e|rs1] d1] eqn:H1.
  { repeat (rewrite ?W_bind_run; simpl; rewrite ?Hprep, ?H1). reflexivity. }
  destruct (step sql parameters d1) as [[e|rs2] d2] eqn:H2;
    repeat (rewrite ?W_bind_run; simpl; rewrite ?Hprep, ?H1, ?H2);
    reflexivity.
Qed.

End Worker.

End BunWorker.

(* ===================================================================== *)
(** * A small SQLite stand-in                                              *)
(* ===================================================================== *)

Module ToyDatabase.

Import BunWorker.

(** One table of integers behind the interface of the binding: [insert]
    appends its parameters and returns no row, [select] returns every
    value, anything else does not compile. *)

Record ToyConn := mkToyConn {
  toy_rows : list Z;
  toy_changes : Z
}.

Definition toy_open (url : string) : Error + ToyConn := inr (mkToyConn [] 0).

Definition toy_close (d : ToyConn) : Error + ToyConn := inr d.

Definition toy_prepare (cached : bool) (sql : string) (d : ToyConn)
  : option Error :=
  if bool_decide (sql ∈ ["insert"; "select"]) then None
  else Some (SQLiteError "syntax error").

Definition toy_step (sql : string) (parameters : list Z) (d : ToyConn)
  : (Error + list Z) * ToyConn :=
  if bool_decide (sql = "insert") then
    (inr [], mkToyConn (toy_rows d ++ parameters) (Z.of_nat (length parameters)))
  else (inr (toy_rows d), mkToyConn (toy_rows d) (toy_changes d)).

Definition toy_last_insert_rowid (d : ToyConn) : Z :=
  Z.of_nat (length (toy_rows d)).

Definition toy_onmessage := onmessage toy_open toy_close toy_prepare toy_step
                              toy_last_insert_rowid toy_changes.

Definition toy_worker : Worker := mkWorker (Some (mkToyConn [] 0)) false.

(** A connection that is inside a transaction or not: [begin] opens one,
    and throws inside one. *)
Definition txn_step (sql : string) (parameters : list Z) (d : bool)
  : (Error + list Z) * bool :=
  if bool_decide (sql = "begin") then
    if d then
      (inl (SQLiteError "cannot start a transaction within a transaction"), d)
    else (inr [], true)
  else (inr [], d).

Definition txn_onmessage :=
  onmessage (λ _, inr false) (λ d, inr d) (λ _ _ _, None) txn_step
    (λ _, 0%Z) (λ _, 0%Z).

(** A [run] request before any [init]: one response, of type ['run'],
    with the [TypeError] and no data. *)
Example run_before_init :
  toy_onmessage (MsgRun Query "select" []) (mkWorker None false) =
  (mkWorker None false,
   [mkWorkerMsg "run" None (Some (TypeError "undefined is not an object"))]).
Proof. reflexivity. Qed.

(** [init], an [insert] and a [select] in a row. *)
Example init_insert_select :
  let w1 := (toy_onmessage (MsgInit "test.db" true) (mkWorker None false)).1 in
  let w2 := (toy_onmessage (MsgRun Exec "insert" [3%Z]) w1).1 in
  (toy_onmessage (MsgRun Query "select" []) w2).2 =
  [mkWorkerMsg "run" (Some (mkQueryResult [3%Z] None None)) None].
Proof. reflexivity. Qed.

(** One raw [insert] of the value 7 leaves two rows. *)
Lemma run_raw_executes_twice_witness :
  toy_onmessage (MsgRun Raw "insert" [7%Z]) toy_worker =
  (mkWorker (Some (mkToyConn [7%Z; 7%Z] 1)) false,
   [mkWorkerMsg "run" (Some (mkQueryResult [] (Some 2%Z) (Some 1%Z))) None]).
Proof.
  exact (run_raw_executes_twice toy_open toy_close toy_prepare toy_step
           toy_last_insert_rowid toy_changes "insert" [7%Z] toy_worker).
Defined.

(** C10, as stated, fails on a raw [begin]: the second execution throws,
    so the response carries the error and neither rows nor [insertId] nor
    [numAffectedRows], and the transaction has been begun once. *)
Lemma raw_begin_is_answered_with_error :
  txn_onmessage (MsgRun Raw "begin" []) (mkWorker (Some false) false) =
  (mkWorker (Some true) false,
   [mkWorkerMsg "run" None
      (Some (SQLiteError "cannot start a transaction within a transaction"))]).
Proof. reflexivity. Qed.

End ToyDatabase.

(* ===================================================================== *)
(** * The worker driver of the playground                                  *)
(* ===================================================================== *)

Module ConnectionMutex.

(** [ConnectionMutex] of the playground's driver.

    [lock] is an [async] method: a call runs up to its first [await] at
    once, and what follows an [await] runs as a job once the awaited
    promise is resolved. The state below is the mutex object, the
    reactions registered on its pending promise, and the queue of jobs that
    resume suspended [lock] calls. The callers are numbered. *)

Abbreviation client := nat (only parsing).

Record Sched := mkSched {
  (** [this.promise], by the number of the promise *)
  promise : option nat;
  (** [this.resolve], by the number of the promise it resolves *)
  resolve : option nat;
  next_promise : nat;
  (** the [lock] calls suspended on each pending promise, in the order in
      which they reached their [await] *)
  reactions : gmap nat (list nat);
  (** the jobs that resume [lock] calls, in queue order *)
  jobs : list nat;
  (** the callers whose [lock] has returned and who have not released *)
  holders : list nat;
  (** the callers in the order of their calls of [acquireConnection] *)
  arrivals : list nat;
  (** the callers in the order in which their [lock] returned *)
  grants : list nat
}.

Definition init : Sched := mkSched None None 0 ∅ [] [] [] [].

(** [lock], entered by a call or re-entered at its loop by a job:
    with a promise in place the caller awaits it, without one it installs a
    new promise and returns. *)
Definition lock (c : client) (s : Sched) : Sched :=
  match promise s with
  | Some p =>
    mkSched (promise s) (resolve s) (next_promise s)
      (<[p := default [] (reactions s !! p) ++ [c]]> (reactions s))
      (jobs s) (holders s) (arrivals s) (grants s)
  | None =>
    let n := next_promise s in
    mkSched (Some n) (Some n) (S n) (reactions s) (jobs s)
      (holders s ++ [c]) (arrivals s) (grants s ++ [c])
  end.

(** [acquireConnection] by caller [c]: [await this.connectionMutex.lock()]. *)
Definition acquireConnection (c : client) (s : Sched) : Sched :=
  lock c (mkSched (promise s) (resolve s) (next_promise s) (reactions s)
                 (jobs s) (holders s) (arrivals s ++ [c]) (grants s)).

(** [unlock]: both fields are cleared, then the saved resolver is called:
    the reactions of its promise become jobs, in their order. *)
Definition unlock (s : Sched) : Sched :=
  match resolve s with
  | Some p =>
    mkSched None None (next_promise s) (delete p (reactions s))
      (jobs s ++ default [] (reactions s !! p))
      (holders s) (arrivals s) (grants s)
  | None =>
    mkSched None None (next_promise s) (reactions s) (jobs s)
      (holders s) (arrivals s) (grants s)
  end.

(** [releaseConnection] by caller [c], who holds the connection no more. *)
Definition releaseConnection (c : client) (s : Sched) : Sched :=
  unlock (mkSched (promise s) (resolve s) (next_promise s) (reactions s)
            (jobs s) (filter (λ h, h ≠ c) (holders s)) (arrivals s)
            (grants s)).

(** The next job resumes its [lock] call at the loop's test. *)
Definition tick (s : Sched) : Sched :=
  match jobs s with
  | c :: js =>
    lock c (mkSched (promise s) (resolve s) (next_promise s)
                   (reactions s) js (holders s) (arrivals s) (grants s))
  | [] => s
  end.

Inductive Event :=
| Acquire (c : client)
| Release (c : client)
| Tick.

Definition step (s : Sched) (e : Event) : Sched :=
  match e with
  | Acquire c => acquireConnection c s
  | Release c => releaseConnection c s
  | Tick => tick s
  end.

Definition run (s : Sched) (es : list Event) : Sched := foldl step s es.

(** A caller releases only the connection it holds. *)
Fixpoint legal (s : Sched) (es : list Event) : Prop :=
  match es with
  | [] => True
  | e :: es =>
    match e with Release c => c ∈ holders s | _ => True end ∧
    legal (step s e) es
  end.

(** Calls of [acquireConnection] and [releaseConnection] are made only
    while no resumption of a [lock] call is waiting in the job queue. *)
Fixpoint quiescent (s : Sched) (es : list Event) : Prop :=
  match es with
  | [] => True
  | e :: es =>
    match e with Tick => True | _ => jobs s = [] end ∧
    quiescent (step s e) es
  end.

Definition is_release (e : Event) : bool :=
  match e with Release _ => true | _ => false end.

(** The [lock] calls suspended on the promise in place. *)
Definition waiting (s : Sched) : list nat :=
  match promise s with
  | Some p => default [] (reactions s !! p)
  | None => []
  end.

(** The two fields are set and cleared together, the connection is held
    exactly while a promise is in place, and only that promise has
    reactions. *)
Definition mutex_inv (s : Sched) : Prop :=
  promise s = resolve s ∧
  match promise s with
  | None => holders s = []
  | Some _ => ∃ c, holders s = [c]
  end ∧
  (∀ p, is_Some (reactions s !! p) → promise s = Some p).

(** Who called first is served first: the callers are those granted, then
    those suspended on the promise, then those woken and not yet resumed. *)
Definition fifo_inv (s : Sched) : Prop :=
  arrivals s = grants s ++ waiting s ++ jobs s.

(** Caller 0 takes the connection, caller 1 waits, 0 releases and 1 is
    resumed. *)
Definition handover : list Event := [Acquire 0; Acquire 1; Release 0; Tick].

(** Callers 0 to 3 call in this order: 0 takes the connection, 1 waits, 0
    releases, and before 1 is resumed 2 calls and takes the free mutex and
    3 calls and suspends on the new promise. Resumed, 1 suspends behind 3. *)
Definition barging : list Event :=
  [Acquire 0; Acquire 1; Release 0; Acquire 2; Acquire 3; Tick].

(** *** Invariants of the mutex *)

Lemma mutex_inv_init : mutex_inv init.
Proof.
  repeat split. intros p [x Hx]. simpl in Hx. by rewrite lookup_empty in Hx.
Qed.

Lemma lock_inv c s :
  mutex_inv s → mutex_inv (lock c s).
Proof.
  intros (Hpr & Hh & Hre). unfold lock.
  destruct (promise s) as [p|] eqn:Hp.
  - repeat split; simpl; rewrite ?Hp; try done.
    intros q Hq. destruct (decide (p = q)) as [->|Hne]; [done|].
    rewrite lookup_insert_ne in Hq by done. by apply Hre.
  - repeat split; simpl.
    + exists c. by rewrite Hh.
    + intros q Hq. by apply Hre in Hq.
Qed.

Lemma step_inv s e :
  mutex_inv s →
  match e with Release c => c ∈ holders s | _ => True end →
  mutex_inv (step s e).
Proof.
  intros Hinv Hlegal. destruct e as [c|c|]; simpl.
  - unfold acquireConnection. apply lock_inv.
    destruct Hinv as (? & ? & ?). by repeat split.
  - destruct Hinv as (Hpr & Hh & Hre).
    unfold releaseConnection, unlock. simpl. rewrite <- Hpr.
    destruct (promise s) as [p|] eqn:Hp.
    + destruct Hh as [h Hh]. rewrite Hh in Hlegal.
      apply list_elem_of_singleton in Hlegal as ->.
      repeat split; simpl.
      * rewrite Hh, filter_cons, decide_False by (by intros H; apply H).
        done.
      * intros q Hq. destruct (decide (p = q)) as [->|Hne].
        -- rewrite lookup_delete_eq in Hq. by destruct Hq.
        -- rewrite lookup_delete_ne in Hq by done.
           apply Hre in Hq. congruence.
    + rewrite Hh in Hlegal. by apply not_elem_of_nil in Hlegal.
  - unfold tick. destruct (jobs s) as [|c js] eqn:Hj; [done|].
    apply lock_inv. destruct Hinv as (? & ? & ?). by repeat split.
Qed.

Lemma run_inv es s : mutex_inv s → legal s es → mutex_inv (run s es).
Proof.
  revert s. induction es as [|e es IH]; intros s Hinv Hl; [done|].
  destruct Hl as [Hl1 Hl2]. simpl. apply IH; [|done]. by apply step_inv.
Qed.

Lemma lock_fifo c s :
  mutex_inv s →
  arrivals s = grants s ++ waiting s ++ c :: jobs s →
  fifo_inv (lock c s).
Proof.
  intros (Hpr & Hh & Hre) Ha. unfold fifo_inv, lock, waiting in *.
  destruct (promise s) as [p|] eqn:Hp; simpl.
  - rewrite lookup_insert_eq. simpl. rewrite Ha, <- !app_assoc. done.
  - assert (Hnone : reactions s !! next_promise s = None).
    { destruct (reactions s !! next_promise s) eqn:Hl; [|done].
      by discriminate (Hre (next_promise s) (mk_is_Some _ _ Hl)). }
    rewrite Hnone. simpl. rewrite Ha, <- app_assoc. done.
Qed.

Lemma step_fifo s e :
  mutex_inv s → fifo_inv s →
  match e with Tick => True | _ => jobs s = [] end →
  fifo_inv (step s e).
Proof.
  intros Hinv Hf Hq. destruct e as [c|c|]; simpl.
  - unfold acquireConnection. apply lock_fifo.
    + destruct Hinv as (? & ? & ?). by repeat split.
    + unfold fifo_inv, waiting in *. simpl. rewrite Hf, Hq.
      by rewrite !app_nil_r, <- app_assoc.
  - destruct Hinv as (Hpr & Hh & Hre).
    unfold fifo_inv, releaseConnection, unlock, waiting in *. simpl.
    rewrite <- Hpr. destruct (promise s) as [p|] eqn:Hp; simpl.
    + rewrite Hf, Hq. by rewrite !app_nil_r.
    + by rewrite Hf.
  - unfold tick. destruct (jobs s) as [|c js] eqn:Hj; [done|].
    apply lock_fifo.
    + destruct Hinv as (? & ? & ?). by repeat split.
    + unfold fifo_inv, waiting in *. simpl. by rewrite Hf, Hj.
Qed.

Lemma run_fifo es s :
  mutex_inv s → fifo_inv s → legal s es → quiescent s es →
  fifo_inv (run s es).
Proof.
  revert s. induction es as [|e es IH]; intros s Hinv Hf Hl Hq; [done|].
  destruct Hl as [Hl1 Hl2]. destruct Hq as [Hq1 Hq2]. simpl.
  apply IH; [by apply step_inv|by apply step_fifo|done|done].
Qed.

(** While nobody releases, the connection stays with its holder. *)
Lemma lock_held c s :
  is_Some (promise s) →
  is_Some (promise (lock c s)) ∧
  holders (lock c s) = holders s ∧
  grants (lock c s) = grants s.
Proof.
  intros [p Hp]. unfold lock. rewrite Hp. simpl.
  repeat split. by eexists.
Qed.

Lemma step_held s e :
  is_Some (promise s) → is_release e = false →
  is_Some (promise (step s e)) ∧
  holders (step s e) = holders s ∧ grants (step s e) = grants s.
Proof.
  intros Hp He. destruct e as [c|c|]; [|done|].
  - apply (lock_held c (mkSched (promise s) (resolve s) (next_promise s)
             (reactions s) (jobs s) (holders s) (arrivals s ++ [c])
             (grants s)) Hp).
  - unfold step, tick. destruct (jobs s) as [|c js]; [done|].
    apply (lock_held c (mkSched (promise s) (resolve s) (next_promise s)
             (reactions s) js (holders s) (arrivals s) (grants s)) Hp).
Qed.

Lemma held_until_release es s :
  is_Some (promise s) → Forall (λ e, is_release e = false) es →
  holders (run s es) = holders s ∧ grants (run s es) = grants s.
Proof.
  revert s. induction es as [|e es IH]; intros s Hp Hes; [done|].
  apply Forall_cons in Hes as [He Hes].
  change (run s (e :: es)) with (run (step s e) es).
  destruct (step_held s e Hp He) as (Hp' & Hh' & Hg').
  destruct (IH _ Hp' Hes) as [-> ->]. done.
Qed.

(** C5, as the code has it. Over every interleaving of calls and jobs in
    which only a holder releases: at most one caller holds the connection;
    a call of [acquireConnection] on a free mutex takes it at once, and
    while it is held no call and no job changes the holder or grants the
    connection until somebody releases; a release turns the suspended
    callers into jobs in the order in which they suspended; and when no
    call is made while woken callers are still to be resumed, the
    connection is granted in the order of the calls. *)
Theorem mutex_exclusion_and_order (es : list Event) :
  legal init es →
  let s := run init es in
  (List.length (holders s) ≤ 1)%nat ∧
  (∀ c, holders s = [] → holders (acquireConnection c s) = [c]) ∧
  (∀ c es', holders s ≠ [] → Forall (λ e, is_release e = false) es' →
     holders (run (acquireConnection c s) es') = holders s ∧
     grants (run (acquireConnection c s) es') = grants s) ∧
  (∀ c, jobs (releaseConnection c s) = jobs s ++ waiting s) ∧
  (quiescent init es → grants s `prefix_of` arrivals s).
Proof.
  intros Hlegal s.
  pose proof (run_inv es init mutex_inv_init Hlegal) as Hinv.
  fold s in Hinv. destruct Hinv as (Hpr & Hh & Hre).
  repeat split.
  - destruct (promise s); [destruct Hh as [c ->]|rewrite Hh]; simpl; lia.
  - intros c Hfree. unfold acquireConnection, lock. simpl.
    destruct (promise s) as [p|] eqn:Hp.
    + destruct Hh as [h Hh]. by rewrite Hh in Hfree.
    + simpl. by rewrite Hfree.
  - destruct (held_until_release es' (acquireConnection c s)) as [-> _];
      [|done|].
    + apply (step_held s (Acquire c)); [|done].
      destruct (promise s); [by eexists|done].
    + apply (step_held s (Acquire c)); [|done].
      destruct (promise s); [by eexists|done].
  - destruct (held_until_release es' (acquireConnection c s)) as [_ ->];
      [|done|].
    + apply (step_held s (Acquire c)); [|done].
      destruct (promise s); [by eexists|done].
    + apply (step_held s (Acquire c)); [|done].
      destruct (promise s); [by eexists|done].
  - intros c. unfold releaseConnection, unlock, waiting. simpl.
    rewrite <- Hpr. destruct (promise s); simpl; [done|].
    by rewrite app_nil_r.
  - intros Hq.
    pose proof (run_fifo es init mutex_inv_init eq_refl Hlegal Hq) as Hf.
    fold s in Hf. unfold fifo_inv in Hf. rewrite Hf. by eexists.
Qed.

Lemma mutex_exclusion_and_order_witness :
  (List.length (holders (run init handover)) ≤ 1)%nat ∧
  grants (run init handover) `prefix_of` arrivals (run init handover).
Proof.
  assert (Hl : legal init handover).
  { simpl. repeat split. by apply list_elem_of_singleton. }
  assert (Hq : quiescent init handover) by (simpl; done).
  destruct (mutex_exclusion_and_order handover Hl) as (H1 & _ & _ & _ & H5).
  split; [exact H1|exact (H5 Hq)].
Defined.

(** C5, as stated, fails on arrival order: in a run in which only holders
    release, callers 1 and 3 are both suspended, 1 called before 3, and the
    connection goes to 2 and then to 3 while 1 still waits. It fails on
    exclusion too once a caller that does not hold the connection releases
    it: after that release the next caller is let in beside the holder. *)
Lemma later_caller_overtakes :
  holders (run init [Acquire 0; Release 1; Acquire 1]) = [0; 1] ∧
  arrivals (run init barging) = [0; 1; 2; 3] ∧
  grants (run init barging) = [0; 2] ∧
  waiting (run init barging) = [3; 1] ∧
  grants (run init (barging ++ [Release 2; Tick])) = [0; 2; 3] ∧
  holders (run init (barging ++ [Release 2; Tick])) = [3] ∧
  jobs (run init (barging ++ [Release 2; Tick])) = [1] ∧
  (0 ∈ holders (run init [Acquire 0; Acquire 1])) ∧
  (2 ∈ holders (run init barging)).
Proof. vm_compute. repeat split; repeat constructor. Qed.

End ConnectionMutex.

(* ===================================================================== *)
(** * The worker driver and its connection                                 *)
(* ===================================================================== *)

Module WaSqliteWorker.

(** [WaSqliteWorkerDriver] and [WaSqliteWorkerConnection]; the driver's
    mutex is [ConnectionMutex] above. *)

Section Driver.

Context {Param Data : Type}.

(** The driver's configuration: [dbName] and [url]. *)
Variable config_dbName config_url : string.

(** Modelled from the spec: [MainMsg] of ./type, with the fields the driver
    fills in. *)
Inductive MainMsg :=
| MsgInit (dbName url : string)
| MsgRun (mode : BunWorker.RunMode) (sql : string) (parameters : list Param)
| MsgClose.

(** Modelled from the spec: what a [WorkerMsg] carries besides its [type],
    [{data|null, err|null}]; a set [err] is an error object. *)
Record Payload := mkPayload {
  data : option Data;
  err : option string
}.

(** [CompiledQuery]: [query.kind], [sql] and [parameters]. *)
Record CompiledQuery := mkCompiledQuery {
  kind : string;
  sql : string;
  parameters : list Param
}.

Inductive PromiseState :=
| Pending
| Fulfilled (d : option Data)
| Rejected (reason : option string).

(** The callbacks the driver registers with [once], by the promise whose
    [resolve] and [reject] they close over. *)
Inductive Handler :=
| OnInit (p : nat)
| OnRun (p : nat)
| OnClose (p : nat).

(** The driver, its worker, the emitter objects and the promises. The
    emitter is shared: the driver's [mitt] field and the [mitt] field of
    the connection created by [init] refer to the same object, by its
    address in [emitters]. The worker object is the configured one. *)
Record World := mkWorld {
  (** [this.worker] is set *)
  drv_worker : bool;
  (** [this.mitt] *)
  drv_mitt : option nat;
  (** [this.connection], a connection given by its [mitt] field *)
  drv_connection : option (option nat);
  (** what [postMessage] delivered to the worker *)
  posted : list MainMsg;
  (** [terminate()] was called on the worker *)
  terminated : bool;
  (** the [all] map of every emitter: event type and handler, in the order
      of registration *)
  emitters : gmap nat (list (string * Handler));
  next_emitter : nat;
  promises : gmap nat PromiseState;
  fresh_promise : nat
}.

Definition set_promises (ps : gmap nat PromiseState) (n : nat) (w : World)
  : World :=
  mkWorld (drv_worker w) (drv_mitt w) (drv_connection w) (posted w)
    (terminated w) (emitters w) (next_emitter w) ps n.

Definition set_emitters (es : gmap nat (list (string * Handler)))
  (w : World) : World :=
  mkWorld (drv_worker w) (drv_mitt w) (drv_connection w) (posted w)
    (terminated w) es (next_emitter w) (promises w) (fresh_promise w).

(** [worker.postMessage(msg)]: a terminated worker receives nothing. *)
Definition postMessage (msg : MainMsg) (w : World) : World :=
  if terminated w then w
  else mkWorld (drv_worker w) (drv_mitt w) (drv_connection w)
         (posted w ++ [msg]) (terminated w) (emitters w) (next_emitter w)
         (promises w) (fresh_promise w).

(** [new Promise(...)]: the new promise's number and the world with it. *)
Definition newPromise (w : World) : nat * World :=
  (fresh_promise w,
   set_promises (<[fresh_promise w := Pending]> (promises w))
     (S (fresh_promise w)) w).

(** [resolve(...)] / [reject(...)]: only a pending promise is settled. *)
Definition settle (p : nat) (st : PromiseState) (w : World) : World :=
  match promises w !! p with
  | Some Pending => set_promises (<[p := st]> (promises w)) (fresh_promise w) w
  | _ => w
  end.

(** Modelled from the spec: the emitter module ([MittOnce]) is not among the
    sources. [once] registers a handler for one event of a type; [emit]
    calls the handlers registered for the type, each at most once ("each
    request expects exactly one matching response, then the association is
    discarded"). *)
Definition once (ref : nat) (type : string) (h : Handler) (w : World)
  : World :=
  set_emitters (alter (λ hs, hs ++ [(type, h)]) ref (emitters w)) w.

(** What a registered callback does with the payload. The statements of
    [init] after its [await] run as soon as its promise is fulfilled and
    before another message is delivered; they are folded into [OnInit]. *)
Definition fire (h : Handler) (msg : Payload) (w : World) : World :=
  match h with
  | OnInit p =>
    match err msg with
    | Some e => settle p (Rejected (Some e)) w
    | None =>
      let w := settle p (Fulfilled None) w in
      (* this.connection = new WaSqliteWorkerConnection(this.worker, this.mitt) *)
      mkWorld (drv_worker w) (drv_mitt w) (Some (drv_mitt w)) (posted w)
        (terminated w) (emitters w) (next_emitter w) (promises w)
        (fresh_promise w)
    end
  | OnRun p =>
    (* (!err && data) ? resolve(data) : reject(err) *)
    match err msg, data msg with
    | None, Some d => settle p (Fulfilled (Some d)) w
    | e, _ => settle p (Rejected e) w
    end
  | OnClose p =>
    match err msg with
    | Some e => settle p (Rejected (Some e)) w
    | None =>
      (* this.worker?.terminate(); this.mitt?.all.clear();
         this.mitt = undefined; resolve() *)
      let es := match drv_mitt w with
                | Some r => <[r := []]> (emitters w)
                | None => emitters w
                end in
      settle p (Fulfilled None)
        (mkWorld (drv_worker w) None (drv_connection w) (posted w) true es
           (next_emitter w) (promises w) (fresh_promise w))
    end
  end.

(** Modelled from the spec: [emit] of the emitter module, which calls the
    handlers registered for the type and discards them. *)
Definition emit (ref : nat) (type : string) (msg : Payload) (w : World)
  : World :=
  let hs := default [] (emitters w !! ref) in
  let called := filter (λ th, th.1 = type) hs in
  let kept := filter (λ th, th.1 ≠ type) hs in
  foldl (λ w th, fire th.2 msg w)
        (set_emitters (<[ref := kept]> (emitters w)) w) called.

(** [worker.onmessage]: [this.mitt?.emit(type, msg)], with the driver's
    [mitt] as it is when the message arrives. *)
Definition onmessage (type : string) (msg : Payload) (w : World) : World :=
  match drv_mitt w with
  | Some r => emit r type msg w
  | None => w
  end.

(** [init()], up to its [await]: the promise awaited and the world. *)
Definition init (w : World) : nat * World :=
  let r := next_emitter w in
  let w := mkWorld true (Some r) (drv_connection w) (posted w) (terminated w)
             (<[r := []]> (emitters w)) (S r) (promises w)
             (fresh_promise w) in
  let w := postMessage (MsgInit config_dbName config_url) w in
  let '(p, w) := newPromise w in
  (p, once r "init" (OnInit p) w).

(** [destroy()]: the promise it returns and the world. *)
Definition destroy (w : World) : nat * World :=
  if negb (drv_worker w) then
    let '(p, w) := newPromise w in (p, settle p (Fulfilled None) w)
  else
    let w := postMessage MsgClose w in
    let '(p, w) := newPromise w in
    match drv_mitt w with
    | Some r => (p, once r "close" (OnClose p) w)
    | None => (p, w)
    end.

Definition mode_of_kind (kind : string) : BunWorker.RunMode :=
  if bool_decide (kind = "SelectQueryNode") then BunWorker.Query
  else if bool_decide (kind = "RawNode") then BunWorker.Raw
  else BunWorker.Exec.

(** [executeQuery] of a connection whose [mitt] field is [conn_mitt]. With
    the field unset the executor rejects, and the [TypeError] its next
    statement throws is dropped, the promise being settled already. *)
Definition executeQuery (conn_mitt : option nat) (q : CompiledQuery)
  (w : World) : nat * World :=
  let mode := mode_of_kind (kind q) in
  let w := postMessage (MsgRun mode (sql q) (parameters q)) w in
  let '(p, w) := newPromise w in
  match conn_mitt with
  | None => (p, settle p (Rejected (Some "kysely instance has been destroyed")) w)
  | Some r => (p, once r "run" (OnRun p) w)
  end.

Definition newWorld : World := mkWorld false None None [] false ∅ 0 ∅ 0.

Definition ok : Payload := mkPayload None None.

(** Delivery of a sequence of worker messages. *)
Definition deliver (w : World) (msgs : list (string * Payload)) : World :=
  foldl (λ w m, onmessage m.1 m.2 w) w msgs.

(** The driver after [init()] and the worker's acknowledgement. *)
Definition ready : World := onmessage "init" ok (init newWorld).2.

(** The driver after [init()], [destroy()] and both acknowledgements. *)
Definition destroyed : World := onmessage "close" ok (destroy ready).2.

Lemma deliver_without_mitt (w : World) (msgs : list (string * Payload)) :
  drv_mitt w = None → deliver w msgs = w.
Proof.
  intros Hm. induction msgs as [|m msgs IH]; [done|].
  unfold deliver in *. simpl. unfold onmessage at 2. by rewrite Hm.
Qed.

(** C8 on the code. (a) A query executed on the connection of a destroyed
    driver is not rejected: [destroy] clears the driver's [mitt] field, the
    connection's own field still refers to the emitter, so the guard in
    [executeQuery] does not fire and the promise stays pending whatever
    the worker sends afterwards. (b) A query in flight when the close
    acknowledgement arrives loses its handler to [all.clear()] and stays
    pending as well. *)
Theorem query_on_destroyed_driver_stays_pending (q : CompiledQuery) :
  drv_mitt destroyed = None ∧
  drv_connection destroyed = Some (Some 0) ∧
  terminated destroyed = true ∧
  (let r := executeQuery (Some 0) q destroyed in
   ∀ msgs, promises (deliver r.2 msgs) !! r.1 = Some Pending) ∧
  (let r := executeQuery (Some 0) q ready in
   let w := onmessage "close" ok (destroy r.2).2 in
   posted w = [MsgInit config_dbName config_url;
               MsgRun (mode_of_kind (kind q)) (sql q) (parameters q);
               MsgClose] ∧
   ∀ msgs, promises (deliver w msgs) !! r.1 = Some Pending).
Proof.
  split; [reflexivity|]. split; [reflexivity|]. split; [reflexivity|].
  split.
  - intros r msgs. rewrite deliver_without_mitt; reflexivity.
  - intros r w. split; [reflexivity|].
    intros msgs. rewrite deliver_without_mitt; reflexivity.
Qed.

(** With its [mitt] field unset, a connection rejects with the message. *)
Lemma executeQuery_without_mitt (q : CompiledQuery) (w : World) :
  let r := executeQuery None q w in
  promises r.2 !! r.1 = Some (Rejected (Some "kysely instance has been destroyed")).
Proof.
  unfold executeQuery, newPromise, settle, postMessage.
  destruct (terminated w); simpl; rewrite lookup_insert_eq; simpl;
    by rewrite lookup_insert_eq.
Qed.

End Driver.

(** ** Query dispatch, on both sides of the channel *)

Section Dispatch.

Context {Conn Row Param Data : Type}.
Variable open : string → BunWorker.Error + Conn.
Variable close : Conn → BunWorker.Error + Conn.
Variable prepare : bool → string → Conn → option BunWorker.Error.
Variable step :
  string → list Param → Conn → (BunWorker.Error + list Row) * Conn.
Variable last_insert_rowid : Conn → Z.
Variable changes : Conn → Z.

(** C7. [executeQuery] posts one [run] request whose mode depends on the
    kind of the query node only: ['query'] for a [SelectQueryNode], ['raw']
    for a [RawNode], ['exec'] for every other kind, with the query's text
    and parameters. On the worker's side, on an opened database, mode
    ['query'] answers with the rows of the statement and neither insert id
    nor affected-row count, and mode ['exec'] answers with no rows, the
    last insert id and the affected-row count. *)
Theorem query_mode_dispatch
  (conn_mitt : option nat) (q : CompiledQuery (Param := Param))
  (w : World (Param := Param) (Data := Data))
  (bw : BunWorker.Worker (Conn := Conn)) (d d1 : Conn) (rs : list Row) :
  terminated w = false →
  BunWorker.db bw = Some d →
  prepare (BunWorker.cache bw) (sql q) d = None →
  step (sql q) (parameters q) d = (inr rs, d1) →
  let run := BunWorker.run prepare step last_insert_rowid changes in
  posted (executeQuery conn_mitt q w).2 =
    posted w ++ [MsgRun (mode_of_kind (kind q)) (sql q) (parameters q)] ∧
  (kind q = "SelectQueryNode" → mode_of_kind (kind q) = BunWorker.Query) ∧
  (kind q = "RawNode" → mode_of_kind (kind q) = BunWorker.Raw) ∧
  (kind q ≠ "SelectQueryNode" → kind q ≠ "RawNode" →
     mode_of_kind (kind q) = BunWorker.Exec) ∧
  (run BunWorker.Query (sql q) (parameters q) bw).1 =
    inr (BunWorker.mkQueryResult rs None None) ∧
  (run BunWorker.Exec (sql q) (parameters q) bw).1 =
    inr (BunWorker.mkQueryResult [] (Some (last_insert_rowid d1))
           (Some (changes d1))).
Proof.
  intros Hterm Hdb Hprep Hstep run. subst run.
  rewrite (BunWorker.run_query_ok prepare step last_insert_rowid changes
             _ _ _ _ _ _ Hdb Hprep Hstep).
  rewrite (BunWorker.run_exec_ok prepare step last_insert_rowid changes
             _ _ _ _ _ _ Hdb Hprep Hstep).
  repeat split.
  - unfold executeQuery, postMessage. rewrite Hterm.
    destruct conn_mitt; simpl; [reflexivity|].
    unfold settle. simpl. by rewrite lookup_insert_eq.
  - intros Hk. unfold mode_of_kind. by rewrite Hk.
  - intros Hk. unfold mode_of_kind. by rewrite Hk.
  - intros H1 H2. unfold mode_of_kind.
    by rewrite !bool_decide_eq_false_2.
Qed.

End Dispatch.

(** An insert through the query builder, against the small database of
    the worker's module. *)
Lemma query_mode_dispatch_witness :
  mode_of_kind "InsertQueryNode" = BunWorker.Exec ∧
  (BunWorker.run ToyDatabase.toy_prepare ToyDatabase.toy_step
     ToyDatabase.toy_last_insert_rowid ToyDatabase.toy_changes
     BunWorker.Exec "insert" [7%Z] ToyDatabase.toy_worker).1 =
    inr (BunWorker.mkQueryResult [] (Some 1%Z) (Some 1%Z)).
Proof.
  destruct (query_mode_dispatch (Data := unit)
              ToyDatabase.toy_prepare ToyDatabase.toy_step
              ToyDatabase.toy_last_insert_rowid ToyDatabase.toy_changes
              (Some 0) (mkCompiledQuery "InsertQueryNode" "insert" [7%Z])
              newWorld ToyDatabase.toy_worker
              (ToyDatabase.mkToyConn [] 0) (ToyDatabase.mkToyConn [7%Z] 1) []
              eq_refl eq_refl eq_refl eq_refl)
    as (_ & _ & _ & Hexec & _ & Hrun).
  split; [apply Hexec; discriminate|exact Hrun].
Defined.

End WaSqliteWorker.

(* ===================================================================== *)
(** * More on [runCreateTable]                                             *)
(* ===================================================================== *)

Module SqliteBuilderFacts.

Import SqliteBuilder.

(** Every entry of [c] is an entry of [c'], with the same definition. *)
Definition keeps (c c' : Catalog) : Prop :=
  (∀ k v, tables c !! k = Some v → tables c' !! k = Some v) ∧
  (∀ k v, indexes c !! k = Some v → indexes c' !! k = Some v) ∧
  (∀ k v, triggers c !! k = Some v → triggers c' !! k = Some v).

(** The indexes a table map declares, by the name [runCreateTable] gives
    them, each with its table and columns, in the order of the loops. *)
Definition indexDecls (tableMap : list (string * Table))
  : list (string * (string * list string)) :=
  tableMap ≫= λ e,
    (λ i, ("idx_" +:+ keys_join i, (e.1, keys_list i))) <$>
      default [] (property e.2 ≫= index).

(** The first declaration of a name, compared as the engine compares
    names. *)
Definition firstDecl (name : string)
  (l : list (string * (string * list string))) : option (string * list string) :=
  snd <$> head (filter (λ d, nocase d.1 = nocase name) l).


(** A table with a column named like the default create column and no
    [timestamp]. *)
Definition postTable : Table :=
  mkTable [("id", mkColumeOption "increments" None false);
           ("createAt", mkColumeOption "number" None true);
           ("title", mkColumeOption "string" None false)]
    (Some (mkTableOption (Some (Many ["id"; "title"])) None
             (Some [One "title"]) None)).

(** A table with an index on its column [Title]. *)
Definition newsTable : Table :=
  mkTable [("Title", mkColumeOption "string" None false)]
    (Some (mkTableOption None None (Some [One "Title"]) None)).

(** A table with an index on a column named [title]. *)
Definition tagTable : Table :=
  mkTable [("title", mkColumeOption "string" None false)]
    (Some (mkTableOption None None (Some [One "title"]) None)).


(** The table and columns of the first [create index] of the name among
    the statements. *)
Fixpoint firstIndexStmt (name : string) (l : list Stmt)
  : option (string * list string) :=
  match l with
  | [] => None
  | CreateIndex n t cols _ :: l =>
    if decide (nocase n = nocase name) then Some (t, cols)
    else firstIndexStmt name l
  | _ :: l => firstIndexStmt name l
  end.


(** The constraints [runCreateTable] adds for a table definition: the
    primary key, unless an auto-increment column is kept or [primary] is
    falsy, and one unique constraint per entry of [unique]. *)
Definition declaredConstraints (table : Table) : list Constraint :=
  let p := property table in
  let ts := p ≫= timestamp in
  (if negb (hasAutoKey (insertColumnName ts) (updateColumnName ts)
              (columns table)) && keys_truthy (p ≫= primary)
   then match p ≫= primary with
        | Some k => [PrimaryKeyConstraint ("pk_" +:+ keys_join k) (keys_list k)]
        | None => []
        end
   else []) ++
  ((λ u, UniqueConstraint ("un_" +:+ keys_join u) (keys_list u)) <$>
     default [] (p ≫= unique)).

Lemma keeps_refl c : keeps c c.
Proof. by repeat split. Qed.

Lemma keeps_trans c1 c2 c3 : keeps c1 c2 → keeps c2 c3 → keeps c1 c3.
Proof. intros (?&?&?) (?&?&?). repeat split; eauto. Qed.

Lemma lookup_insert_fresh {V} (m : gmap string V) k v k' v' :
  m !! k = None → m !! k' = Some v' → <[k := v]> m !! k' = Some v'.
Proof.
  intros Hk Hk'. rewrite lookup_insert_ne; [done|]. congruence.
Qed.

Lemma exec_keeps accepts resolves c s :
  ifne s = true → keeps c (exec accepts resolves c s).2.
Proof.
  intros Hs. unfold exec.
  destruct (accepts s); simpl; [|apply keeps_refl].
  destruct s as [t ie|n|name t cols ine|t]; [done| | |].
  - destruct (tables c !! nocase (ct_table n)) eqn:Hex; simpl;
      [apply keeps_refl|].
    destruct (indexes c !! nocase (ct_table n)); simpl; [apply keeps_refl|].
    repeat split; simpl; eauto using lookup_insert_fresh.
  - destruct (tables c !! nocase t); simpl; [|apply keeps_refl].
    destruct (indexes c !! nocase name) eqn:Hex; simpl; [apply keeps_refl|].
    destruct (tables c !! nocase name); simpl; [apply keeps_refl|].
    destruct (resolves _ _); simpl; [|apply keeps_refl].
    repeat split; simpl; eauto using lookup_insert_fresh.
  - destruct (tables c !! nocase (trg_table t)); simpl; [|apply keeps_refl].
    destruct (triggers c !! nocase (trg_name t)) eqn:Hex; simpl;
      [apply keeps_refl|].
    repeat split; simpl; eauto using lookup_insert_fresh.
Qed.

Lemma guard_catalog accepts resolves s db :
  catalog (guard accepts resolves s db).2 = (exec accepts resolves (catalog db) s).2.
Proof. by rewrite guard_run. Qed.

Lemma runScript_keeps accepts resolves l db :
  Forall (λ s, ifne s = true) l →
  keeps (catalog db) (catalog (runScript accepts resolves l db).2).
Proof.
  revert db. induction l as [|s l IH]; intros db Hl; [apply keeps_refl|].
  apply Forall_cons in Hl as [Hs Hl].
  unfold runScript. rewrite forOf_cons.
  pose proof (exec_keeps accepts resolves (catalog db) s Hs) as Hk.
  rewrite <- guard_catalog in Hk.
  destruct (guard accepts resolves s db) as [[e|[]] db1]; [exact Hk|].
  eapply keeps_trans; [exact Hk|]. by apply IH.
Qed.

(** X1. With [dropTableBeforeInit] off, a run of [runCreateTable], resolved or
    rejected, leaves every table, index and trigger that was in the
    database in it, with the definition it had: an existing table is never
    altered to its declaration. *)
Theorem existing_objects_are_kept
  (accepts : Stmt → bool)
  (resolves : CreateTableNode → list string → bool)
  (tableMap : list (string * Table)) (db : Db) :
  keeps (catalog db) (catalog (runCreateTable accepts resolves tableMap false db).2).
Proof.
  rewrite runCreateTable_script. apply runScript_keeps, script_ifne.
Qed.

(** *** What [create table] says *)

Lemma fmap_fst_filter {A B} (P : A → Prop) `{∀ x, Decision (P x)}
  (l : list (A * B)) :
  (filter (λ e, P e.1) l).*1 = filter P l.*1.
Proof.
  induction l as [|[a b] l IH]; [done|].
  rewrite filter_cons, fmap_cons, filter_cons. simpl.
  destruct (decide (P a)); [rewrite fmap_cons; f_equal|]; exact IH.
Qed.

Lemma col_name_columnBuilder name dt o :
  col_name (columnBuilder name dt o) = name.
Proof. unfold columnBuilder. by case_bool_decide. Qed.

(** X2. Without [timestamp], the columns of the [create table] statement are
    the declared columns in their order, except that columns named
    [createAt] or [updateAt] are left out. *)
Theorem timestamp_named_columns_are_left_out
  (tableName : string) (table : Table) :
  timestamp_truthy (property table ≫= timestamp) = false →
  col_name <$> ct_columns (tableSql (buildTable tableName table)) =
  filter (λ n, n ∉ ["createAt"; "updateAt"]) (columns table).*1.
Proof.
  intros Hts. rewrite buildTable_columns. cbn zeta. rewrite Hts, app_nil_r.
  assert (Hins : insertColumnName (property table ≫= timestamp) = "createAt"
               ∧ updateColumnName (property table ≫= timestamp) = "updateAt").
  { destruct (property table ≫= timestamp) as [[b|c u]|]; simpl in *; done. }
  destruct Hins as [-> ->].
  rewrite <- list_fmap_compose. unfold keptColumns.
  rewrite <- (fmap_fst_filter (λ n, n ∉ ["createAt"; "updateAt"])).
  apply list_fmap_ext. intros i [n o] _. simpl.
  apply col_name_columnBuilder.
Qed.

Lemma timestamp_named_columns_are_left_out_witness :
  col_name <$> ct_columns (tableSql (buildTable "post" postTable)) =
  ["id"; "title"].
Proof.
  exact (timestamp_named_columns_are_left_out "post" postTable eq_refl).
Defined.

Lemma uniqueStep_constraints prim us st :
  ct_constraints (tableSql (foldl (uniqueStep prim) st us)) =
  ct_constraints (tableSql st) ++
  ((λ u, UniqueConstraint ("un_" +:+ keys_join u) (keys_list u)) <$> us).
Proof.
  revert st. induction us as [|u us IH]; intros st; simpl.
  - by rewrite app_nil_r.
  - rewrite IH. simpl. by rewrite <- app_assoc.
Qed.

(** X3. The constraints of the [create table] statement: a primary-key
    constraint [pk_...] only when no kept column is auto-increment and
    [primary] is truthy, so a declared primary key is dropped from a table
    with an auto-increment column, then a unique constraint [un_...] per
    entry of [unique], in order; and the auto-increment column itself is
    an integer primary key without its declared [notNull] and [defaultTo]. *)
Theorem constraints_of_create_table (tableName : string) (table : Table) :
  let node := tableSql (buildTable tableName table) in
  let ts := property table ≫= timestamp in
  ct_constraints node = declaredConstraints table ∧
  (hasAutoKey (insertColumnName ts) (updateColumnName ts) (columns table)
     = true →
   Forall (λ c, ∀ n cs, c ≠ PrimaryKeyConstraint n cs) (ct_constraints node)) ∧
  (∀ name o, (name, o) ∈ columns table →
     name ∉ [insertColumnName ts; updateColumnName ts] →
     type o = "increments" →
     mkColumnDefinition name "integer" true true false None
       ∈ ct_columns node).
Proof.
  intros node ts.
  assert (Hc : ct_constraints node = declaredConstraints table).
  { subst node. unfold buildTable, declaredConstraints.
    rewrite uniqueStep_constraints. f_equal. fold ts.
    match goal with |- context [foldl (columnStep ?i ?u) ?st ?l] =>
      destruct (columnStep_foldl i u l st) as (_ & Hcs & _ & _ & Ha);
      cbn zeta in Hcs, Ha; simpl ct_constraints in Hcs;
      simpl _haveAutoKey in Ha;
      set (st1 := foldl (columnStep i u) st l) in * end.
    assert (Hts : ct_constraints (tableSql (timestampStep ts st1)) = []
                  ∧ _haveAutoKey (timestampStep ts st1) = _haveAutoKey st1).
    { unfold timestampStep. by destruct (timestamp_truthy ts). }
    destruct Hts as [Hts1 Hts2]. unfold primaryStep.
    rewrite Hts2, Ha. simpl orb.
    destruct (property table ≫= primary) as [k|]; simpl.
    - destruct (negb _ && _); simpl; by rewrite Hts1.
    - by rewrite andb_false_r, Hts1. }
  split; [exact Hc|]. split.
  - intros Hauto. rewrite Hc. unfold declaredConstraints. fold ts.
    rewrite Hauto. simpl. apply Forall_fmap, Forall_forall.
    by intros u _ n cs.
  - intros name o Hin Hkeep Hinc. subst node. rewrite buildTable_columns.
    fold ts. apply elem_of_app. left.
    assert (Hb : columnBuilder name (dataTypeOf (type o)) o =
                 mkColumnDefinition name "integer" true true false None).
    { unfold columnBuilder. rewrite Hinc. reflexivity. }
    rewrite <- Hb.
    apply (list_elem_of_fmap_2
             (λ e, columnBuilder e.1 (dataTypeOf (type e.2)) e.2) _ (name, o)).
    by apply list_elem_of_filter.
Qed.

(** *** Rejection and re-creation *)









Lemma guard_plain_resolved accepts resolves s db db1 :
  is_trigger_stmt s = false → guard accepts resolves s db = (inr (), db1) →
  (exec accepts resolves (catalog db) s).1 ≠ Failed ∧
  catalog db1 = (exec accepts resolves (catalog db) s).2.
Proof.
  intros Hs Hg. rewrite guard_run in Hg. cbn zeta in Hg.
  rewrite Hs in Hg. simpl negb in Hg. rewrite andb_true_r in Hg.
  destruct ((exec accepts resolves (catalog db) s).1) eqn:Ho; simpl in Hg;
    [| |done]; injection Hg as <-; by rewrite ?Ho.
Qed.






(** Two names that differ in case only are one table to the engine: the
    second entry drops the table of the first, and one table is left,
    with the second definition. *)
Example names_differing_in_case_are_one_table :
  let r := runCreateTable acceptAll declaredColumns
             [("User", userTable); ("user", tagTable)] true emptyDb in
  r.1 = inr () ∧
  dom (tables (catalog r.2)) = {["user"]} ∧
  tables (catalog r.2) !! "user" =
    Some (ifNotExists (tableSql (buildTable "user" tagTable))).
Proof. vm_compute. done. Qed.

(** *** Index names *)

Lemma firstIndexStmt_app name l1 l2 :
  firstIndexStmt name (l1 ++ l2) =
  match firstIndexStmt name l1 with
  | Some v => Some v
  | None => firstIndexStmt name l2
  end.
Proof.
  induction l1 as [|s l1 IH]; [done|].
  destruct s as [| |n t cols ine|]; simpl; try exact IH.
  by destruct (decide (nocase n = nocase name)).
Qed.

Lemma firstDecl_app name l1 l2 :
  firstDecl name (l1 ++ l2) =
  match firstDecl name l1 with
  | Some v => Some v
  | None => firstDecl name l2
  end.
Proof.
  unfold firstDecl. rewrite filter_app.
  by destruct (filter (λ d, nocase d.1 = nocase name) l1).
Qed.

Lemma firstIndexStmt_triggers name tableName table :
  firstIndexStmt name (triggerStmts tableName table) = None.
Proof. unfold triggerStmts. by destruct (timestamp_truthy _). Qed.

Lemma firstIndexStmt_indexes name tableName (ks : list Keys) :
  firstIndexStmt name (indexStmt tableName <$> ks) =
  firstDecl name
    ((λ i, ("idx_" +:+ keys_join i, (tableName, keys_list i))) <$> ks).
Proof.
  induction ks as [|i ks IH]; [done|].
  rewrite !fmap_cons. cbn [firstIndexStmt indexStmt].
  unfold firstDecl. rewrite filter_cons. cbn [fst snd].
  destruct (decide (nocase ("idx_" +:+ keys_join i) = nocase name));
    [done|exact IH].
Qed.

Lemma firstIndexStmt_script name tableMap :
  firstIndexStmt name (script false tableMap) =
  firstDecl name (indexDecls tableMap).
Proof.
  induction tableMap as [|e tm IH]; [done|].
  rewrite script_cons, firstIndexStmt_app.
  unfold indexDecls. rewrite bind_cons. fold (indexDecls tm).
  rewrite firstDecl_app, <- IH, <- firstIndexStmt_indexes.
  unfold scriptOne. simpl app. simpl firstIndexStmt.
  rewrite firstIndexStmt_app, firstIndexStmt_triggers.
  by destruct (firstIndexStmt name (indexStmt e.1 <$> _)).
Qed.

Lemma exec_index_lookup accepts resolves c s name :
  ifne s = true → is_trigger_stmt s = false →
  (exec accepts resolves c s).1 ≠ Failed →
  indexes (exec accepts resolves c s).2 !! nocase name =
  match indexes c !! nocase name with
  | Some v => Some v
  | None => firstIndexStmt name [s]
  end.
Proof.
  intros Hs Ht. unfold exec. destruct (accepts s); simpl; [|done].
  destruct s as [t ie|n|iname t cols ine|t]; [done| |simpl|done].
  - intros _.
    destruct (tables c !! nocase (ct_table n)); simpl;
      [by destruct (indexes c !! nocase name)|].
    destruct (indexes c !! nocase (ct_table n)); simpl;
      by destruct (indexes c !! nocase name).
  - destruct (tables c !! nocase t); simpl; [|done].
    destruct (indexes c !! nocase iname) eqn:Hex; simpl.
    + intros _. destruct (decide (nocase iname = nocase name)) as [Heq|Hne].
      * by rewrite <- Heq, Hex.
      * by destruct (indexes c !! nocase name).
    + destruct (tables c !! nocase iname); simpl; [done|].
      destruct (resolves _ _); simpl; [|done]. intros _.
      destruct (decide (nocase iname = nocase name)) as [Heq|Hne].
      * by rewrite <- Heq, lookup_insert_eq, Hex.
      * rewrite lookup_insert_ne by done.
        by destruct (indexes c !! nocase name).
Qed.

Lemma runScript_index_lookup accepts resolves l db db' name :
  Forall (λ s, ifne s = true) l →
  runScript accepts resolves l db = (inr (), db') →
  indexes (catalog db') !! nocase name =
  match indexes (catalog db) !! nocase name with
  | Some v => Some v
  | None => firstIndexStmt name l
  end.
Proof.
  revert db. induction l as [|s l IH]; intros db Hl Hrun.
  { injection Hrun as <-. by destruct (indexes _ !! nocase name). }
  apply Forall_cons in Hl as [Hs Hl].
  unfold runScript in Hrun. rewrite forOf_cons in Hrun.
  destruct (guard accepts resolves s db) as [[e|[]] db1] eqn:Hg; [done|].
  rewrite (IH db1 Hl Hrun).
  destruct (is_trigger_stmt s) eqn:Htrg.
  - destruct s as [| | |t]; try discriminate Htrg.
    rewrite guard_trigger in Hg. injection Hg as <-. simpl.
    destruct (exec_trigger accepts resolves (catalog db) t) as (_ & -> & _).
    done.
  - apply guard_plain_resolved in Hg as [Ho ->]; [|done].
    rewrite (exec_index_lookup accepts resolves (catalog db) s name Hs Htrg Ho).
    destruct (indexes (catalog db) !! nocase name); [done|].
    change (s :: l) with ([s] ++ l). rewrite firstIndexStmt_app.
    done.
Qed.

(** X6. Index names carry no table name, and the engine compares them
    without regard to case. After a run that resolves (with
    [dropTableBeforeInit] off), an index name that was free before belongs
    to the first declaration in the table map whose name equals it up to
    case, with that declaration's table and columns: a later table that
    declares an index of such a name gets none, and no [create index] is
    applied under a name nobody declares. *)
Theorem first_index_declaration_wins
  (accepts : Stmt → bool)
  (resolves : CreateTableNode → list string → bool)
  (tableMap : list (string * Table)) (db db' : Db)
  (name : string) :
  runCreateTable accepts resolves tableMap false db = (inr (), db') →
  indexes (catalog db) !! nocase name = None →
  indexes (catalog db') !! nocase name =
    firstDecl name (indexDecls tableMap).
Proof.
  intros Hrun Hfree. rewrite runCreateTable_script in Hrun.
  rewrite (runScript_index_lookup accepts resolves _ db db' name
             (script_ifne tableMap) Hrun), Hfree.
  apply firstIndexStmt_script.
Qed.

Lemma first_index_declaration_wins_witness :
  indexes (catalog (runCreateTable acceptAll declaredColumns
                      [("news", newsTable); ("tag", tagTable)] false
                      emptyDb).2) !! nocase "idx_title" =
    Some ("news", ["Title"]).
Proof.
  exact (first_index_declaration_wins acceptAll declaredColumns
           [("news", newsTable); ("tag", tagTable)] emptyDb _ "idx_title"
           eq_refl eq_refl).
Defined.

End SqliteBuilderFacts.

(* ===================================================================== *)
(** * [preCompile]                                                         *)
(* ===================================================================== *)

Module PreCompile.

(** JavaScript values as they occur among query parameters. *)
Inductive JsValue :=
| JUndefined
| JNull
| JBool (b : bool)
| JNum (n : Z)
| JStr (s : string)
| JObject (id : nat).

(** What is kept of a compiled query: [sql], [query.kind], [parameters]. *)
Record Compiled := mkCompiled {
  sql : string;
  kind : string;
  parameters : list JsValue
}.



(** [getParam]: [`__precomile_${name}`] *)
Definition getParam (name : string) : JsValue :=
  JStr ("__precomile_" +:+ name).

(** [p.slice(n)] *)
Fixpoint slice (n : nat) (s : string) : string :=
  match n, s with
  | 0, _ => s
  | S n, String _ s => slice n s
  | S _, EmptyString => EmptyString
  end.

(** [param[name]] *)
Definition param_get (param : gmap string JsValue) (name : string)
  : JsValue :=
  default JUndefined (param !! name).

(** A slot of a query under construction: a named parameter, for which the
    builder calls [getParam], or a value of its own. *)
Inductive Slot :=
| Named (name : string)
| Literal (v : JsValue).

Definition fill (s : Slot) : JsValue :=
  match s with
  | Named name => getParam name
  | Literal v => v
  end.

(** A value that the substitution leaves alone. *)
Definition plain (v : JsValue) : Prop :=
  match v with
  | JStr s => String.prefix "__precomile_" s = false
  | _ => True
  end.

(** A serializer that turns booleans into strings and keeps the rest. *)
Definition serializeBool (v : JsValue) : JsValue :=
  match v with
  | JBool true => JStr "true"
  | JBool false => JStr "false"
  | _ => v
  end.

Section PreCompile.

(** [defaultSerializer] of the serialize plugin. *)
Variable defaultSerializer : JsValue → JsValue.

(** [paramBuilder(queryBuilder(db), getParam).compile()], as a function of
    the [getParam] it is handed. *)
Variable compile : (string → JsValue) → Compiled.

(** The callback of [compiled.parameters.map]. *)
Definition substitute (param : gmap string JsValue) (p : JsValue)
  : JsValue :=
  match p with
  | JStr s =>
    if String.prefix "__precomile_" s
    then defaultSerializer (param_get param (slice 12 s))
    else p
  | _ => p
  end.

(** [{ ...compiled, parameters: compiled.parameters.map(...) }] *)
Definition render (param : gmap string JsValue) (c : Compiled) : Compiled :=
  mkCompiled (sql c) (kind c) (substitute param <$> parameters c).





Lemma prefix_append (p s : string) : String.prefix p (p +:+ s) = true.
Proof.
  induction p as [|a p IH]; simpl; [by destruct s|].
  by destruct (Ascii.ascii_dec a a).
Qed.

Lemma slice_append (p s : string) : slice (String.length p) (p +:+ s) = s.
Proof. induction p as [|a p IH]; simpl; [by destruct s|exact IH]. Qed.

Lemma substitute_getParam param name :
  substitute param (getParam name) = defaultSerializer (param_get param name).
Proof.
  unfold substitute, getParam. rewrite prefix_append.
  change 12 with (String.length "__precomile_"). by rewrite slice_append.
Qed.

Lemma substitute_plain param v : plain v → substitute param v = v.
Proof. destruct v; simpl; try done. by intros ->. Qed.

(** X8. A parameter the builder obtained from [getParam] comes back as the
    serialized value of the call's parameter of that name ([undefined]
    serialized when the call gives none), and every other parameter that
    is not a string starting with the placeholder prefix comes back as it
    is, in the same position. *)
Theorem preCompile_substitutes_named_parameters
  (param : gmap string JsValue) (slots : list Slot) (c : Compiled) :
  parameters c = fill <$> slots →
  Forall (λ s, match s with Literal v => plain v | Named _ => True end)
         slots →
  parameters (render param c) =
    (λ s, match s with
          | Named name => defaultSerializer (param_get param name)
          | Literal v => v
          end) <$> slots.
Proof.
  intros Hc Hplain. simpl. rewrite Hc, <- list_fmap_compose.
  apply Forall_fmap_ext_1. eapply Forall_impl; [exact Hplain|].
  intros [name|v] Hs; simpl.
  - apply substitute_getParam.
  - by apply substitute_plain.
Qed.

End PreCompile.

Lemma preCompile_substitutes_named_parameters_witness :
  parameters
    (render serializeBool {[ "name" := JStr "a"; "done" := JBool true ]}
       (mkCompiled "select * from t where name = ? and done = ? limit ?"
          "SelectQueryNode" [getParam "name"; getParam "done"; JNum 10])) =
  [JStr "a"; JStr "true"; JNum 10].
Proof.
  exact (preCompile_substitutes_named_parameters serializeBool
           {[ "name" := JStr "a"; "done" := JBool true ]}
           [Named "name"; Named "done"; Literal (JNum 10)]
           (mkCompiled "select * from t where name = ? and done = ? limit ?"
              "SelectQueryNode" [getParam "name"; getParam "done"; JNum 10])
           eq_refl ltac:(repeat constructor)).
Defined.

End PreCompile.

(* ===================================================================== *)
(** * More on the bun worker                                               *)
(* ===================================================================== *)

Module BunWorkerFacts.

Import BunWorker.

(** A table of integers with a unique column, filled row by row: an
    [insert] stops with an error at the first value that is in the table
    already, and the rows written before it stay. *)
Fixpoint unique_insert (parameters : list Z) (d : list Z)
  : (Error + list Z) * list Z :=
  match parameters with
  | [] => (inr [], d)
  | v :: parameters =>
    if bool_decide (v ∈ d)
    then (inl (SQLiteError "UNIQUE constraint failed"), d)
    else unique_insert parameters (d ++ [v])
  end.

Definition unique_step (sql : string) (parameters : list Z) (d : list Z)
  : (Error + list Z) * list Z :=
  if bool_decide (sql = "insert") then unique_insert parameters d
  else (inr d, d).

Definition unique_onmessage :=
  onmessage (λ _, inr []) (λ d, inr d) (λ _ _ _, None) unique_step
    (λ d, Z.of_nat (List.length d)) (λ _, 1%Z).

Section Facts.

Context {Conn Row Param : Type}.
Variable open : string → Error + Conn.
Variable close : Conn → Error + Conn.
Variable prepare : bool → string → Conn → option Error.
Variable step : string → list Param → Conn → (Error + list Row) * Conn.
Variable last_insert_rowid : Conn → Z.
Variable changes : Conn → Z.

(** X9. Before [init] has set [db], every [run] and every [close] request is
    answered with a [TypeError] and no data, and the worker's variables
    stay as they were. *)
Theorem request_before_init_is_an_error
  (m : MainMsg (Param := Param)) (w : Worker (Conn := Conn)) :
  db w = None →
  (∀ url c, m ≠ MsgInit url c) →
  onmessage open close prepare step last_insert_rowid changes m w =
    (w, [mkWorkerMsg (Row := Row) (msg_type m) None
           (Some (TypeError "undefined is not an object"))]).
Proof.
  intros Hdb Hm. destruct w as [d c]. simpl in Hdb. subst d.
  destruct m as [mode sql ps| |url c']; [| |by destruct (Hm url c')].
  - reflexivity.
  - reflexivity.
Qed.

(** X10. In modes ['query'] and ['exec'] a statement that compiles is
    executed once, whether the execution throws or not: the database is
    left as that one execution leaves it. The response carries the rows
    (mode ['query']) or the insert id and affected-row count read after
    the execution (mode ['exec']), and when compiling or executing threw,
    the error and no data. *)
Theorem query_and_exec_execute_once
  (mode : RunMode) (sql : string) (parameters : list Param)
  (w : Worker (Conn := Conn)) (d : Conn) :
  db w = Some d → mode ≠ Raw →
  let r := onmessage open close prepare step last_insert_rowid changes
             (MsgRun mode sql parameters) w in
  match prepare (cache w) sql d, step sql parameters d with
  | Some e, _ => r = (w, [mkWorkerMsg "run" None (Some e)])
  | None, (inl e, d1) =>
    r = (mkWorker (Some d1) (cache w), [mkWorkerMsg "run" None (Some e)])
  | None, (inr rs, d1) =>
    r = (mkWorker (Some d1) (cache w),
         [mkWorkerMsg "run"
            (Some (if mode_is_query mode
                   then mkQueryResult rs None None
                   else mkQueryResult [] (Some (last_insert_rowid d1))
                          (Some (changes d1))))
            None])
  end.
Proof.
  intros Hdb Hmode r. subst r. destruct w as [dw c]. simpl in *. subst dw.
  unfold onmessage, handle.
  destruct (prepare c sql d) as [e|] eqn:Hprep.
  - unfold run, db_prepare, the_db, get_cache, throw.
    repeat (rewrite ?W_bind_run; simpl; rewrite ?Hprep). done.
  - destruct (step sql parameters d) as [[e|rs] d1] eqn:Hstep.
    + destruct mode; [|done|];
        unfold run, db_prepare, stmt_all, stmt_run, the_db, get_cache,
          set_db, throw;
        repeat (rewrite ?W_bind_run; simpl; rewrite ?Hprep, ?Hstep); done.
    + destruct mode; [|done|].
      * rewrite W_bind_run,
          (run_query_ok prepare step last_insert_rowid changes sql parameters
             (mkWorker (Some d) c) d rs d1 eq_refl Hprep Hstep).
        reflexivity.
      * rewrite W_bind_run,
          (run_exec_ok prepare step last_insert_rowid changes sql parameters
             (mkWorker (Some d) c) d rs d1 eq_refl Hprep Hstep).
        reflexivity.
Qed.

End Facts.

Lemma request_before_init_is_an_error_witness :
  ToyDatabase.toy_onmessage (MsgRun Exec "insert" [1%Z]) (mkWorker None false) =
  (mkWorker None false,
   [mkWorkerMsg "run" None (Some (TypeError "undefined is not an object"))]).
Proof.
  apply (request_before_init_is_an_error ToyDatabase.toy_open
           ToyDatabase.toy_close ToyDatabase.toy_prepare ToyDatabase.toy_step
           ToyDatabase.toy_last_insert_rowid ToyDatabase.toy_changes
           (MsgRun Exec "insert" [1%Z]) (mkWorker None false) eq_refl).
  intros url c. discriminate.
Defined.

(** One [insert] of 1, 2 and 1 into the unique column: the answer is the
    constraint error, and 1 and 2 are in the table. *)
Lemma query_and_exec_execute_once_witness :
  unique_onmessage (MsgRun Exec "insert" [1%Z; 2%Z; 1%Z])
    (mkWorker (Some []) false) =
  (mkWorker (Some [1%Z; 2%Z]) false,
   [mkWorkerMsg "run" None (Some (SQLiteError "UNIQUE constraint failed"))]).
Proof.
  exact (query_and_exec_execute_once (λ _, inr []) (λ d, inr d)
           (λ _ _ _, None) unique_step (λ d, Z.of_nat (List.length d))
           (λ _, 1%Z) Exec "insert" [1%Z; 2%Z; 1%Z]
           (mkWorker (Some []) false) [] eq_refl ltac:(discriminate)).
Defined.

End BunWorkerFacts.

(* ===================================================================== *)
(** * More on [ConnectionMutex]                                            *)
(* ===================================================================== *)

Module ConnectionMutexFacts.

Import ConnectionMutex.

(** Every caller is accounted for: granted, suspended on the promise in
    place, or woken and waiting to be resumed. *)
Definition accounted (s : Sched) : Prop :=
  arrivals s ≡ₚ grants s ++ waiting s ++ jobs s.

(** Caller 0 holds the connection while 1 and 2 wait; 0 releases. *)
Definition twoWaiters : list Event :=
  [Acquire 0; Acquire 1; Acquire 2; Release 0].

Lemma lock_accounted c s :
  mutex_inv s →
  arrivals s ≡ₚ grants s ++ waiting s ++ c :: jobs s →
  accounted (lock c s).
Proof.
  intros (Hpr & Hh & Hre) Ha. unfold accounted, lock, waiting in *.
  destruct (promise s) as [p|] eqn:Hp; simpl.
  - rewrite lookup_insert_eq. simpl. rewrite Ha, <- !app_assoc.
    by apply Permutation_app_head, Permutation_app_head.
  - assert (Hnone : reactions s !! next_promise s = None).
    { destruct (reactions s !! next_promise s) eqn:Hl; [|done].
      by discriminate (Hre (next_promise s) (mk_is_Some _ _ Hl)). }
    rewrite Hnone. simpl. rewrite Ha. simpl.
    by rewrite <- app_assoc.
Qed.

Lemma step_accounted s e :
  mutex_inv s → accounted s → accounted (step s e).
Proof.
  intros Hinv Hf. destruct e as [c|c|]; simpl.
  - unfold acquireConnection. apply lock_accounted.
    + destruct Hinv as (? & ? & ?). by repeat split.
    + unfold accounted, waiting in *. simpl. rewrite Hf.
      rewrite <- !app_assoc.
      apply Permutation_app_head, Permutation_app_head.
      symmetry. apply Permutation_cons_append.
  - destruct Hinv as (Hpr & Hh & Hre).
    unfold accounted, releaseConnection, unlock, waiting in *. simpl.
    rewrite <- Hpr. destruct (promise s) as [p|] eqn:Hp; simpl.
    + rewrite Hf. apply Permutation_app_head, Permutation_app_comm.
    + by rewrite Hf.
  - unfold tick. destruct (jobs s) as [|c js] eqn:Hj; [done|].
    apply lock_accounted.
    + destruct Hinv as (? & ? & ?). by repeat split.
    + unfold accounted, waiting in *. simpl. by rewrite Hf, Hj.
Qed.

Lemma run_accounted es s :
  mutex_inv s → accounted s → legal s es → accounted (run s es).
Proof.
  revert s. induction es as [|e es IH]; intros s Hinv Hf Hl; [done|].
  destruct Hl as [Hl1 Hl2]. simpl.
  apply IH; [by apply step_inv|by apply step_accounted|done].
Qed.

(** X12. In every interleaving in which only a holder releases, no caller is
    lost, whatever the order of calls and jobs: each call of
    [acquireConnection] has been granted, is suspended on the promise in
    place, or has been woken and waits in the job queue. *)
Theorem no_acquirer_is_lost (es : list Event) :
  legal init es →
  arrivals (run init es) ≡ₚ
    grants (run init es) ++ waiting (run init es) ++ jobs (run init es).
Proof.
  intros Hl.
  apply (run_accounted es init mutex_inv_init); [|exact Hl].
  unfold accounted. simpl. reflexivity.
Qed.

Lemma no_acquirer_is_lost_witness :
  arrivals (run init (barging ++ [Release 2; Tick])) ≡ₚ
    grants (run init (barging ++ [Release 2; Tick])) ++
    waiting (run init (barging ++ [Release 2; Tick])) ++
    jobs (run init (barging ++ [Release 2; Tick])).
Proof.
  apply no_acquirer_is_lost. simpl.
  repeat split; apply list_elem_of_singleton; reflexivity.
Defined.

(** X13. In every interleaving in which only a holder releases: when the
    holder releases while nobody is waiting to be resumed, and the first
    job runs next, the connection goes to the caller that suspended
    first, and the others suspend again in their order. *)
Theorem release_hands_over_to_first_waiter
  (es : list Event) (h c : nat) (ws : list nat) :
  legal init es →
  let s := run init es in
  holders s = [h] → waiting s = c :: ws → jobs s = [] →
  holders (run s [Release h; Tick]) = [c] ∧
  jobs (run s [Release h; Tick]) = ws ∧
  waiting (run s (Release h :: Tick :: ((λ _, Tick) <$> ws))) = ws.
Proof.
  intros Hlegal s Hh Hw Hj.
  pose proof (run_inv es init mutex_inv_init Hlegal) as Hinv.
  fold s in Hinv. destruct Hinv as (Hpr & Hhold & Hre).
  unfold waiting in Hw. destruct (promise s) as [p|] eqn:Hp; [|done].
  set (s2 := run s [Release h; Tick]).
  assert (Hs2 : s2 = mkSched (Some (next_promise s)) (Some (next_promise s))
                       (S (next_promise s)) (delete p (reactions s)) ws [c]
                       (arrivals s) (grants s ++ [c])).
  { subst s2. simpl. unfold releaseConnection, unlock. simpl.
    rewrite <- Hpr. simpl. rewrite Hj, Hw, Hh. simpl.
    rewrite filter_cons, decide_False by (by intros H; apply H).
    unfold tick, lock. simpl. reflexivity. }
  split; [by rewrite Hs2|]. split; [by rewrite Hs2|].
  change (run s (Release h :: Tick :: ((λ _, Tick) <$> ws)))
    with (run s2 ((λ _, Tick) <$> ws)).
  assert (Hempty : delete p (reactions s) !! next_promise s = None).
  { destruct (delete p (reactions s) !! next_promise s) eqn:Hl; [|done].
    destruct (decide (p = next_promise s)) as [->|Hne].
    - by rewrite lookup_delete_eq in Hl.
    - rewrite lookup_delete_ne in Hl by done.
      pose proof (Hre _ (mk_is_Some _ _ Hl)). congruence. }
  rewrite Hs2. clear Hs2 s2.
  assert (Hgen : ∀ js done r,
    r !! next_promise s = (if done is [] then None else Some done) →
    waiting (run (mkSched (Some (next_promise s)) (Some (next_promise s))
                    (S (next_promise s)) r js [c] (arrivals s)
                    (grants s ++ [c]))
               ((λ _, Tick) <$> js)) = done ++ js).
  { induction js as [|j js IH]; intros done r Hr.
    - simpl. unfold waiting. simpl. rewrite Hr, app_nil_r.
      by destruct done.
    - rewrite fmap_cons. simpl. unfold tick, lock. simpl.
      rewrite (IH (done ++ [j])).
      + by rewrite <- app_assoc.
      + rewrite lookup_insert_eq, Hr.
        by destruct done. }
  by rewrite (Hgen ws [] _ Hempty).
Qed.

Lemma release_hands_over_to_first_waiter_witness :
  holders (run init twoWaiters) = [] ∧
  holders (run init (twoWaiters ++ [Tick])) = [1] ∧
  waiting (run init (twoWaiters ++ [Tick; Tick])) = [2].
Proof.
  assert (Hl : legal init [Acquire 0; Acquire 1; Acquire 2]) by (simpl; done).
  destruct (release_hands_over_to_first_waiter
              [Acquire 0; Acquire 1; Acquire 2] 0 1 [2] Hl
              eq_refl eq_refl eq_refl) as (H1 & _ & H3).
  split; [reflexivity|]. split; [exact H1|exact H3].
Defined.

End ConnectionMutexFacts.

(* ===================================================================== *)
(** * More on [defineTable]                                                *)
(* ===================================================================== *)

Module DefineFacts.

Import Define.

(** The names under which a [timeTrigger] configuration writes. *)
Definition trigger_names (prop : option TableProperty) : list string :=
  let tt := default (mkTimeTriggerOptions TrgAbsent TrgAbsent)
                    (prop ≫= timeTrigger) in
  option_list (trigger_key (create tt) "createAt") ++
  option_list (trigger_key (update tt) "updateAt").

(** What the two assignments of [defineTable] do to the object. *)
Definition with_triggers (prop : option TableProperty)
  (obj : gmap string ColumnProperty) : gmap string ColumnProperty :=
  let tt := default (mkTimeTriggerOptions TrgAbsent TrgAbsent)
                    (prop ≫= timeTrigger) in
  let put k v (o : gmap string ColumnProperty) :=
    match k with Some k => <[k := v]> o | None => o end in
  put (trigger_key (update tt) "updateAt") options_notNull0
    (put (trigger_key (create tt) "createAt") options obj).

Lemma defineTable_store cols prop (h : gmap nat (gmap string ColumnProperty)) l :
  (defineTable cols prop h).2 !! l =
  if decide (l = cols) then with_triggers prop <$> h !! l else h !! l.
Proof.
  unfold defineTable, with_triggers. simpl.
  destruct (decide (l = cols)) as [->|Hne].
  - destruct (h !! cols) as [obj|] eqn:Hobj.
    + erewrite assign_if_lookup; [done|]. by apply assign_if_lookup.
    + unfold assign_if, assign.
      destruct (trigger_key (update _) _), (trigger_key (create _) _);
        rewrite ?lookup_alter_eq, ?Hobj; simpl; by rewrite ?Hobj.
  - rewrite !assign_if_other; done.
Qed.

Lemma with_triggers_entries prop obj k :
  k ∈ trigger_names prop →
  ∃ e, with_triggers prop obj !! k = Some e ∧ is_trigger_entry e.
Proof.
  unfold trigger_names, with_triggers.
  destruct (trigger_key (create _) _) as [c|],
           (trigger_key (update _) _) as [u|]; simpl;
    rewrite ?elem_of_cons, ?elem_of_nil; intros Hk.
  - destruct (decide (u = k)) as [->|Hne].
    + exists options_notNull0. rewrite lookup_insert_eq. by repeat split.
    + exists options. rewrite lookup_insert_ne by done.
      destruct Hk as [->|[->|[]]]; [|done].
      rewrite lookup_insert_eq. by repeat split.
  - destruct Hk as [->|[]]. exists options.
    rewrite lookup_insert_eq. by repeat split.
  - destruct Hk as [->|[]]. exists options_notNull0.
    rewrite lookup_insert_eq. by repeat split.
  - by destruct Hk.
Qed.

Lemma with_triggers_keeps_entries prop obj k e :
  obj !! k = Some e → is_trigger_entry e →
  ∃ e', with_triggers prop obj !! k = Some e' ∧ is_trigger_entry e'.
Proof.
  intros Hk He. unfold with_triggers.
  assert (Hput : ∀ (o : gmap string ColumnProperty) key v,
            is_trigger_entry v →
            (∃ x, o !! k = Some x ∧ is_trigger_entry x) →
            ∃ x, match key with Some key => <[key := v]> o | None => o end
                   !! k = Some x ∧ is_trigger_entry x).
  { intros o [key|] v Hv Ho; [|done].
    destruct (decide (key = k)) as [->|Hne].
    - exists v. by rewrite lookup_insert_eq.
    - by rewrite lookup_insert_ne. }
  apply Hput; [by repeat split|]. apply Hput; [by repeat split|]. eauto.
Qed.

Lemma with_triggers_idemp prop obj :
  with_triggers prop (with_triggers prop obj) = with_triggers prop obj.
Proof.
  unfold with_triggers.
  destruct (trigger_key (create _) _) as [c|],
           (trigger_key (update _) _) as [u|]; cbv zeta; try done;
    apply map_eq; intros k.
  - destruct (decide (u = k)) as [->|Hu].
    + by rewrite !lookup_insert_eq.
    + rewrite !(lookup_insert_ne _ u k) by done.
      destruct (decide (c = k)) as [->|Hc].
      * by rewrite !lookup_insert_eq.
      * rewrite !(lookup_insert_ne _ c k) by done.
        rewrite !(lookup_insert_ne _ u k) by done.
        by rewrite !(lookup_insert_ne _ c k) by done.
  - destruct (decide (c = k)) as [->|Hc].
    + by rewrite !lookup_insert_eq.
    + by rewrite !(lookup_insert_ne _ c k) by done.
  - destruct (decide (u = k)) as [->|Hu].
    + by rewrite !lookup_insert_eq.
    + by rewrite !(lookup_insert_ne _ u k) by done.
Qed.

(** X14. A columns object used for a second table: both tables refer to the one
    object, which after the second call still holds a time-trigger entry
    under every name the first call wrote, whatever the second table's
    configuration; and a second call with the same configuration changes
    nothing. *)
Theorem defineTable_shares_columns_between_tables
  (cols : nat) (p1 p2 : option TableProperty)
  (h : gmap nat (gmap string ColumnProperty))
  (obj : gmap string ColumnProperty) :
  h !! cols = Some obj →
  let r1 := defineTable cols p1 h in
  let r2 := defineTable cols p2 r1.2 in
  columns r2.1 = columns r1.1 ∧
  (∃ obj2, r2.2 !! cols = Some obj2 ∧
     ∀ k, k ∈ trigger_names p1 ∨ k ∈ trigger_names p2 →
          ∃ e, obj2 !! k = Some e ∧ is_trigger_entry e) ∧
  (p2 = p1 → r2.2 = r1.2).
Proof.
  intros Hobj r1 r2. split; [reflexivity|]. split.
  - exists (with_triggers p2 (with_triggers p1 obj)). split.
    + subst r2 r1. rewrite defineTable_store, decide_True by done.
      rewrite defineTable_store, decide_True by done. by rewrite Hobj.
    + intros k [Hk|Hk].
      * destruct (with_triggers_entries p1 obj k Hk) as (e & He1 & He2).
        by apply (with_triggers_keeps_entries p2 _ k e).
      * by apply with_triggers_entries.
  - intros ->. subst r2 r1. apply map_eq. intros l.
    rewrite defineTable_store. destruct (decide (l = cols)) as [->|]; [|done].
    rewrite defineTable_store, decide_True by done.
    rewrite Hobj. simpl. by rewrite with_triggers_idemp.
Qed.

Lemma defineTable_shares_columns_between_tables_witness :
  ∃ obj2, (defineTable 0 None
             (defineTable 0 (Some example_property) example_store).2).2 !! 0
          = Some obj2 ∧
    ∃ e, obj2 !! "createAt" = Some e ∧ is_trigger_entry e.
Proof.
  destruct (defineTable_shares_columns_between_tables 0
              (Some example_property) None example_store example_columns
              (lookup_singleton_eq 0 example_columns))
    as (_ & (obj2 & H1 & H2) & _).
  exists obj2. split; [exact H1|].
  apply H2. left. repeat constructor.
Defined.

End DefineFacts.

(* ===================================================================== *)
(** * [parseTableMap] (sqlite-builder/src/util.ts)                         *)
(* ===================================================================== *)

Module ParseTableMap.

(** A JavaScript object as [for ... in] and [hasOwnProperty] see it: its own
    enumerable properties in enumeration order, and the enumerable
    properties of its prototype chain. *)
Record JsObject (V : Type) := mkJsObject {
  own : list (string * V);
  inherited : list (string * V);
}.
Arguments mkJsObject {V} _ _.
Arguments own {V} _.
Arguments inherited {V} _.

Section Parse.
Context {V : Type}.

Definition assoc (k : string) (l : list (string * V)) : option V :=
  (λ r, r.2.2) <$> list_find (λ p, p.1 = k) l.

Definition hasOwnProperty (o : JsObject V) (k : string) : bool :=
  bool_decide (k ∈ (own o).*1).

(** [o[k]]: the own property, else the inherited one. *)
Definition get (o : JsObject V) (k : string) : option V :=
  match assoc k (own o) with
  | Some v => Some v
  | None => assoc k (inherited o)
  end.

(** Names visited by [for (const k in o)]: own names first, then the
    inherited names that no own property shadows. *)
Definition forIn (o : JsObject V) : list string :=
  (own o).*1 ++ filter (λ k, k ∉ (own o).*1) (inherited o).*1.

(** [Map.prototype.set] on an insertion-ordered map. *)
Fixpoint map_set (k : string) (v : V) (m : list (string * V))
  : list (string * V) :=
  match m with
  | [] => [(k, v)]
  | (k', v') :: m' =>
      if decide (k' = k) then (k, v) :: m' else (k', v') :: map_set k v m'
  end.

Definition parseStep (o : JsObject V) (map : list (string * V))
  (tableName : string) : list (string * V) :=
  if negb (hasOwnProperty o tableName) then map
  else match get o tableName with
       | Some table => map_set tableName table map
       | None => map
       end.

Definition parseTableMap (tables : JsObject V) : list (string * V) :=
  foldl (parseStep tables) [] (forIn tables).

Lemma map_set_fresh k v m :
  k ∉ m.*1 → map_set k v m = m ++ [(k, v)].
Proof.
  induction m as [|[k' v'] m IH]; simpl; [done|].
  rewrite not_elem_of_cons. intros [Hne Hm].
  rewrite decide_False by done. by rewrite IH.
Qed.

Lemma assoc_cons k k' v (l : list (string * V)) :
  assoc k ((k', v) :: l) = if decide (k' = k) then Some v else assoc k l.
Proof.
  unfold assoc. simpl. destruct (decide (k' = k)); simpl; [done|].
  by destruct (list_find _ l) as [[? [? ?]]|].
Qed.

Lemma assoc_app_fresh k v (pre l : list (string * V)) :
  k ∉ pre.*1 → assoc k (pre ++ (k, v) :: l) = Some v.
Proof.
  induction pre as [|[k' v'] pre IH]; simpl; intros Hk.
  - by rewrite assoc_cons, decide_True.
  - apply not_elem_of_cons in Hk as [Hne Hk].
    rewrite assoc_cons, decide_False by done. by apply IH.
Qed.

Lemma parse_own (o : JsObject V) pre post :
  own o = pre ++ post → NoDup (own o).*1 →
  foldl (parseStep o) pre post.*1 = own o.
Proof.
  revert pre. induction post as [|[k v] post IH]; intros pre Ho Hnd; simpl.
  - by rewrite Ho, app_nil_r.
  - assert (Hk : k ∉ pre.*1).
    { rewrite Ho, fmap_app in Hnd. apply NoDup_app in Hnd as (_ & Hd & _).
      intros Hin. apply (Hd k Hin). simpl. left. }
    unfold parseStep at 2. unfold hasOwnProperty, get.
    rewrite bool_decide_eq_true_2.
    2:{ rewrite Ho, fmap_app. apply elem_of_app. right. simpl. left. }
    simpl. rewrite Ho at 1. rewrite assoc_app_fresh by done.
    rewrite map_set_fresh by done.
    apply IH; [|done]. by rewrite Ho, <- app_assoc.
Qed.

Lemma parse_inherited (o : JsObject V) m ks :
  Forall (λ k, k ∉ (own o).*1) ks → foldl (parseStep o) m ks = m.
Proof.
  revert m. induction ks as [|k ks IH]; intros m Hks; simpl; [done|].
  apply Forall_cons in Hks as [Hk Hks].
  unfold parseStep at 2. unfold hasOwnProperty.
  rewrite bool_decide_eq_false_2 by done. simpl. by apply IH.
Qed.

(** X15. The map holds exactly the object's own properties, each under its name
    with its value and in the object's enumeration order; nothing inherited
    from the prototype chain enters, also not under a name that an own
    property lacks. *)
Theorem parseTableMap_keeps_own_properties (tables : JsObject V) :
  NoDup (own tables).*1 →
  parseTableMap tables = own tables.
Proof.
  intros Hnd. unfold parseTableMap, forIn. rewrite foldl_app.
  rewrite (parse_own tables [] (own tables)) by done.
  apply parse_inherited. apply Forall_forall. intros k Hk.
  by apply list_elem_of_filter in Hk as [Hk _].
Qed.

End Parse.

Definition tablesWithPrototype : JsObject nat :=
  mkJsObject [("user", 1); ("post", 2)] [("post", 7); ("audit", 9)].

Lemma parseTableMap_keeps_own_properties_witness :
  parseTableMap tablesWithPrototype = [("user", 1); ("post", 2)].
Proof.
  apply (parseTableMap_keeps_own_properties tablesWithPrototype).
  simpl. repeat constructor; rewrite ?elem_of_cons, ?elem_of_nil;
    intros H; repeat destruct H as [H|H]; try discriminate H; done.
Defined.

End ParseTableMap.

(* ===================================================================== *)
(** * The official-wasm connection (dialect-wasm/.../driver.ts)            *)
(* ===================================================================== *)

Module OfficialWasm.

Inductive JsError :=
| TypeError
| SyntaxError
| EngineError (msg : string).

Record QueryResult := mkQueryResult {
  numAffectedRows : Z;
  insertId : Z;
}.

Section Connection.
Context {Cell Db : Type}.

(** The values that reach [BigInt] here: [undefined] (index 0 of an empty
    array), a bigint ([changes(false, true)] asks for a 64-bit count), and
    a row in [rowMode: 'object'], an object keyed by column name. *)
Inductive JsValue :=
| JUndefined
| JBigInt (z : Z)
| JObject (fields : list (string * Cell)).

(** [BigInt(v)]: [undefined] is a TypeError; an object is converted through
    its string form, which is no integer literal, a SyntaxError. *)
Definition BigInt (v : JsValue) : JsError + Z :=
  match v with
  | JUndefined => inl TypeError
  | JBigInt z => inr z
  | JObject _ => inl SyntaxError
  end.

(** The engine's [exec]: runs [sql] with the bound values, and either
    throws or delivers the result rows, each row as its named cells. *)
Variable db_exec :
  string → list Cell → Db → (string + list (list (string * Cell))) * Db.
Variable db_changes : Db → Z.

Definition query (sql : string) (param : option (list Cell)) (d : Db)
  : (JsError + list JsValue) * Db :=
  match db_exec sql (default [] param) d with
  | (inl m, d') => (inl (EngineError m), d')
  | (inr rows, d') => (inr (JObject <$> rows), d')
  end.

Definition exec (sql : string) (param : option (list Cell)) (d : Db)
  : (JsError + QueryResult) * Db :=
  match db_exec sql (default [] param) d with
  | (inl m, d1) => (inl (EngineError m), d1)
  | (inr _, d1) =>
      match BigInt (JBigInt (db_changes d1)) with
      | inl e => (inl e, d1)
      | inr n =>
          match query "SELECT last_insert_rowid()" None d1 with
          | (inl e, d2) => (inl e, d2)
          | (inr rows, d2) =>
              match BigInt (default JUndefined (head rows)) with
              | inl e => (inl e, d2)
              | inr i => (inr (mkQueryResult n i), d2)
              end
          end
      end
  end.

Lemma BigInt_row (rows : list (list (string * Cell))) :
  ∃ e, BigInt (default JUndefined (head (JObject <$> rows))) = inl e.
Proof. destruct rows; simpl; eauto. Qed.

(** X16. [exec] never returns a result: when the statement and the row-id query
    both run, the conversion of the first row (an object, or [undefined]
    when there is none) throws. The statement has run by then: the database
    is left as the statement and the row-id query leave it. *)
Theorem exec_always_throws (sql : string) (param : option (list Cell))
  (d : Db) :
  (∃ e, (exec sql param d).1 = inl e) ∧
  (∀ rows d1, db_exec sql (default [] param) d = (inr rows, d1) →
     (∃ e, (exec sql param d).1 = inl e ∧
           ((∀ m, (db_exec "SELECT last_insert_rowid()" [] d1).1 ≠ inl m) →
            e = TypeError ∨ e = SyntaxError)) ∧
     (exec sql param d).2 = (db_exec "SELECT last_insert_rowid()" [] d1).2).
Proof.
  assert (Hmain : ∀ rows d1,
    db_exec sql (default [] param) d = (inr rows, d1) →
    (∃ e, (exec sql param d).1 = inl e ∧
          ((∀ m, (db_exec "SELECT last_insert_rowid()" [] d1).1 ≠ inl m) →
           e = TypeError ∨ e = SyntaxError)) ∧
    (exec sql param d).2 = (db_exec "SELECT last_insert_rowid()" [] d1).2).
  { intros rows d1 He. unfold exec, query. rewrite He. simpl.
    destruct (db_exec "SELECT last_insert_rowid()" [] d1)
      as [[m|rows'] d2] eqn:Hq; simpl.
    - split; [|done]. exists (EngineError m). split; [done|].
      intros Hm. by destruct (Hm m).
    - destruct rows' as [|r rows']; simpl; split; try done.
      + exists TypeError. split; [done|]. by left.
      + exists SyntaxError. split; [done|]. by right. }
  split; [|exact Hmain].
  destruct (db_exec sql (default [] param) d) as [[m|rows] d1] eqn:He.
  - exists (EngineError m). unfold exec. by rewrite He.
  - destruct (Hmain rows d1 eq_refl) as [(e & He' & _) _]. eauto.
Qed.

End Connection.

End OfficialWasm.
